(** * ModsBeforeFriday: the agent communication layer of [mbf-site/src/Agent.ts]

    A shallow embedding of the control side of the agent protocol:
    provisioning of the agent binary ([prepareAgent], [overwriteAgent],
    [saveAgent], [downloadAgent]), the request/response session
    ([sendRequest]) and the [patchApp] wrapper.

    Conventions.
    - A JavaScript string is a [string]; the only case mapping and white
      space the model knows are the ASCII ones (a SHA-1 digest printed by
      [sha1sum] is ASCII).
    - Every call that leaves [Agent.ts] and returns nothing of interest
      ([console.*], the event sink, [toast.warning], the writes to the
      device) is recorded as an [Event]; a computation is a pair of the
      events it produced, in order, and of its [Result].  Such calls are
      taken to return normally, and the observer to leave the event it is
      handed as it is; [Callback] has the session for an observer that may
      throw or alter the event.
    - An [as] cast checks nothing: a property read after one is read off the
      answer whatever its variant ([properties]).
    - What the device, the network and the clock answer is an explicit
      argument ([AgentRun], [Environment]). *)

From Stdlib Require Import String Ascii List ZArith Lia Bool DecimalString.
From Equations Require Import Equations.
From Equations.Prop Require Import Logic.
Import ListNotations.
Open Scope string_scope.

Set Default Proof Using "Type".

(** ** JavaScript strings *)

Module JsString.

Definition newline : ascii := "010"%char.

(** [s.split(sep)] for a separator of one character.  The result is never
    empty: [split sep ""] is [[""]]. *)
Fixpoint split (sep : ascii) (s : string) : list string :=
  match s with
  | EmptyString => [EmptyString]
  | String c rest =>
      if Ascii.eqb c sep then EmptyString :: split sep rest
      else match split sep rest with
           | seg :: segs => String c seg :: segs
           | [] => [String c EmptyString]
           end
  end.

(** White space removed by [trim], within ASCII: TAB, LF, VT, FF, CR and
    the space. *)
Definition is_space (c : ascii) : bool :=
  let n := nat_of_ascii c in
  ((9 <=? n) && (n <=? 13))%nat || (n =? 32)%nat.

Fixpoint trimStart (s : string) : string :=
  match s with
  | EmptyString => EmptyString
  | String c rest => if is_space c then trimStart rest else s
  end.

(** [trimEnd] keeps a character when it is not white space or when
    something is left after it. *)
Fixpoint trimEnd (s : string) : string :=
  match s with
  | EmptyString => EmptyString
  | String c rest =>
      match trimEnd rest with
      | EmptyString => if is_space c then EmptyString else String c EmptyString
      | kept => String c kept
      end
  end.

Definition trim (s : string) : string := trimEnd (trimStart s).

Definition upper_char (c : ascii) : ascii :=
  let n := nat_of_ascii c in
  if ((97 <=? n) && (n <=? 122))%nat then ascii_of_nat (n - 32) else c.

Fixpoint toUpperCase (s : string) : string :=
  match s with
  | EmptyString => EmptyString
  | String c rest => String (upper_char c) (toUpperCase rest)
  end.

(** [String(n)] for an integer. *)
Definition of_number (n : Z) : string := NilZero.string_of_int (Z.to_int n).

(** [s.includes(sub)] *)
Fixpoint includes (s sub : string) : bool :=
  String.prefix sub s ||
  match s with
  | EmptyString => false
  | String _ rest => includes rest sub
  end.

End JsString.

(** ** Messages ([Messages.ts], as far as [Agent.ts] reads and builds them) *)

Inductive LogLevel := Error | Warn | Info | Debug | Trace.

Record LogMsg := { level : LogLevel; message : string }.

(** The payload types [Agent.ts] only passes along, and the observers it
    can be handed. *)
Class Payloads := {
  Mod : Type;
  ImportResult : Type;
  Sink : Type
}.

Section Messages.
Context `{Payloads}.

Record AppInfo := {
  loader_installed : string;
  version : string;
  manifest_xml : string
}.

Record CoreModsInfo := {
  all_core_mods_installed : bool;
  supported_versions : list string;
  downgrade_versions : list string
}.

(** A status object.  [mods] is what its [installed_mods] holds: a list of
    mods in a [ModStatus]; in the object literals that [patchApp] and
    [quickFix] build it is whatever the answer held under that name. *)
Record ModStatusOf (mods : Type) := {
  app_info : option AppInfo;
  core_mods : option CoreModsInfo;
  modloader_present : bool;
  installed_mods : mods
}.
Global Arguments app_info {mods} _.
Global Arguments core_mods {mods} _.
Global Arguments modloader_present {mods} _.
Global Arguments installed_mods {mods} _.
Global Arguments Build_ModStatusOf {mods} _ _ _ _.

Definition ModStatus : Type := ModStatusOf (list Mod).

Record Patched := {
  patched_installed_mods : list Mod;
  did_remove_dlc : bool
}.

(** The tagged union [Response]: a log message or one of the terminal
    payloads. *)
Inductive Response :=
| R_LogMsg (log : LogMsg)
| R_ModStatus (status : ModStatus)
| R_Mods (mods : list Mod)
| R_ImportResult (result : ImportResult)
| R_FixedPlayerData (existed : bool)
| R_DowngradedManifest (xml : string)
| R_Patched (patched : Patched).

Inductive Request :=
| GetModStatus (override_core_mod_url : option string)
| SetModsEnabled (statuses : list (string * bool))
| GetDowngradedManifest (version : string)
| Import (from_path : string)
| ImportUrl (from_url : string)
| RemoveMod (id : string)
| Patch (downgrade_to : option string) (manifest_mod : string)
        (allow_no_core_mods : bool) (override_core_mod_url : option string)
        (remodding : bool)
| QuickFix (override_core_mod_url : option string) (wipe_existing_mods : bool)
| FixPlayerData.

(** [msg.type === "LogMsg"] *)
Definition is_LogMsg (msg : Response) : bool :=
  match msg with R_LogMsg _ => true | _ => false end.

(** The properties [Agent.ts] reads off an answer after an [as] cast, which
    checks nothing: [None] is [undefined], and [did_remove_dlc] is read for
    its truth value only. *)
Record AnswerProperties := {
  prop_installed_mods : option (list Mod);
  prop_did_remove_dlc : bool;
  prop_manifest_xml : option string;
  prop_existed : option bool
}.

Definition no_properties : AnswerProperties :=
  {| prop_installed_mods := None; prop_did_remove_dlc := false;
     prop_manifest_xml := None; prop_existed := None |}.

Definition LogEventSink := option Sink.

(** ** Effects *)

Inductive ConsoleMethod :=
| c_log | c_error | c_warn | c_debug | c_info | c_trace | c_group | c_groupEnd.

Inductive Event :=
| Console (method : ConsoleMethod) (args : list string)
| SinkCall (sink : Sink) (event : LogMsg)
| JSONParse (text : string)
| Spawn (path : string)
| StdinWrite (data : string)
| SpawnAndWait (command : string)
| SyncOpen
| SyncWrite (filename : string) (file : list Byte.byte)
| SyncDispose
| XhrSend (method url : string)
| ToastWarning (text : string).

(** How a call ends: with a value, with a thrown [Error] carrying a
    message, or outside what the TypeScript types describe: a whole answer
    handed back under a type it does not have ([return response as
    ImportResult] on an answer of another variant). *)
Inductive Result (A : Type) :=
| Returned (value : A)
| Thrown (reason : string)
| IllTyped.
Global Arguments Returned {A} value.
Global Arguments Thrown {A} reason.
Global Arguments IllTyped {A}.

Definition M (A : Type) : Type := list Event * Result A.

Definition ret {A} (a : A) : M A := ([], Returned a).
Definition throw {A} (reason : string) : M A := ([], Thrown reason).
Definition tell (e : Event) : M unit := ([e], Returned tt).

Definition bind {A B} (m : M A) (k : A -> M B) : M B :=
  match m with
  | (t1, Returned a) => let (t2, r) := k a in ((t1 ++ t2)%list, r)
  | (t1, Thrown reason) => (t1, Thrown reason)
  | (t1, IllTyped) => (t1, IllTyped)
  end.

(** [try { body } finally { cleanup }] for a cleanup that cannot throw. *)
Definition finally {A} (body : M A) (cleanup : list Event) : M A :=
  ((fst body ++ cleanup)%list, snd body).

Definition events {A} (m : M A) : list Event := fst m.
Definition outcome {A} (m : M A) : Result A := snd m.

End Messages.

Declare Scope agent_scope.
Delimit Scope agent_scope with agent.
Notation "x <- m ;; k" := (bind m (fun x => k))
  (at level 61, m at next level, right associativity) : agent_scope.
Notation "m ;;; k" := (bind m (fun _ => k))
  (at level 61, right associativity) : agent_scope.
Open Scope agent_scope.

(** What [Agent.ts] imports and [src/] does not hold: the JSON codec of the
    runtime together with the [as Response] cast (a frame that is valid JSON
    decodes to a [Response]; [None] stands for the [SyntaxError]), the
    build-time constant [AGENT_SHA1], the rendering of a download
    percentage, which the source computes in floating point, and what an
    [ImportResult], whose declaration is not at hand, holds under the
    property names read off other answers. *)
Class Externals `{Payloads} := {
  JSON_parse : string -> option Response;
  JSON_stringify : Request -> string;
  AGENT_SHA1 : string;
  percent_text : N -> N -> string;
  ImportResult_properties : ImportResult -> AnswerProperties
}.


(** ** The session: [logFromAgent], [logInfo], [sendRequest] *)

Section Session.
Context `{Ext : Externals}.

Definition AgentPath : string := "/data/local/tmp/mbf-agent".

(** The observer is called on the event; here it returns normally and
    leaves the event as it is ([Callback.logInfo] is the function for any
    callback). *)
Definition logInfo (sink : LogEventSink) (msg : string) : M unit :=
  tell (Console c_log [msg]) ;;;
  match sink with
  | Some s => tell (SinkCall s {| level := Info; message := msg |})
  | None => ret tt
  end.

Definition logFromAgent (log : LogMsg) : M unit :=
  match level log with
  | Error => tell (Console c_error [message log])
  | Warn => tell (Console c_warn [message log])
  | Debug => tell (Console c_debug [message log])
  | Info => tell (Console c_info [message log])
  | Trace => tell (Console c_trace [message log])
  end.

(** [try { msg_obj = JSON.parse(text) } catch(e) { throw ... }] *)
Definition parse_message (text : string) : M Response :=
  tell (JSONParse text) ;;;
  match JSON_parse text with
  | Some msg_obj => ret msg_obj
  | None => throw ("Agent message " ++ text ++ " was not valid JSON")
  end.

(** The body of the [for] loop once the message is parsed: what is latched
    in [response] afterwards.  The observer returns normally and leaves
    [log_obj] as it is; [Callback.dispatch] is the body for any callback. *)
Definition dispatch (eventSink : LogEventSink) (response : option Response)
    (msg_obj : Response) : M (option Response) :=
  match msg_obj with
  | R_LogMsg log_obj =>
      logFromAgent log_obj ;;;
      match eventSink with
      | Some s => tell (SinkCall s log_obj)
      | None => ret tt
      end ;;;
      match level log_obj with
      | Error => ret (Some msg_obj)
      | _ => ret response
      end
  | _ => ret (Some msg_obj)
  end.

(** [for(let i = 0; i < messages.length - 1; i++)], over the messages
    still to visit. *)
Fixpoint for_messages (eventSink : LogEventSink) (response : option Response)
    (messages : list string) : M (option Response) :=
  match messages with
  | [] => ret response
  | text :: rest =>
      msg_obj <- parse_message text ;;
      response <- dispatch eventSink response msg_obj ;;
      for_messages eventSink response rest
  end.

Record LoopState := { buffer : string; response : option Response }.

(** One iteration of [while(!exited)] on a read that delivered [receivedStr]. *)
Definition on_chunk (eventSink : LogEventSink) (st : LoopState)
    (receivedStr : string) : M LoopState :=
  let buffer := buffer st ++ receivedStr in
  let messages := JsString.split JsString.newline buffer in
  let buffer := nth (length messages - 1) messages EmptyString in
  response <- for_messages eventSink (response st)
                (firstn (length messages - 1) messages) ;;
  ret {| buffer := buffer; response := response |}.

(** The [while(!exited)] loop over the results of the [reader.read()] calls
    it made before [exited] was seen set; [None] is a read whose [value] is
    [undefined]. *)
Fixpoint read_loop (eventSink : LogEventSink) (st : LoopState)
    (reads : list (option string)) : M LoopState :=
  match reads with
  | [] => ret st
  | None :: rest => read_loop eventSink st rest
  | Some receivedStr :: rest =>
      st <- on_chunk eventSink st receivedStr ;;
      read_loop eventSink st rest
  end.

(** What one spawned agent process did: the reads of its standard output
    made by the loop, the code its [exit] promise resolved with, and the
    decoded chunks of its standard error. *)
Record AgentRun := {
  stdout_reads : list (option string);
  exit_code : Z;
  stderr_chunks : list string
}.

(** Lines 242 to 258: the outcome once the loop is left. *)
Definition resolve (run : AgentRun) (response : option Response) : M Response :=
  if (exit_code run =? 0)%Z then
    match response with
    | None => throw "Received error response from agent"
    | Some (R_LogMsg log) => throw ("`" ++ message log ++ "`")
    | Some terminal => ret terminal
    end
  else
    throw ("Failed to invoke agent: is the executable corrupt?"
           ++ String.concat "" (stderr_chunks run)).

Definition initial_state : LoopState := {| buffer := ""; response := None |}.

Definition sendRequest (run : AgentRun) (request : Request)
    (eventSink : LogEventSink) : M Response :=
  let command_buffer := JSON_stringify request ++ String JsString.newline "" in
  tell (Spawn AgentPath) ;;;
  tell (StdinWrite command_buffer) ;;;
  tell (Console c_group ["Agent Request"]) ;;;
  st <- read_loop eventSink initial_state (stdout_reads run) ;;
  tell (Console c_groupEnd []) ;;;
  resolve run (response st).

(** ** [patchApp] *)

Definition dlc_warning : string :=
  "MBF (temporarily) deleted installed DLC while downgrading your game. To get them back, FIRST restart your headset THEN download the DLC in-game.".

(** Reading a property of [null]: the [TypeError] of the engine. *)
Definition null_property (name : string) : string :=
  "Cannot read properties of null (reading '" ++ name ++ "')".

(** What an answer holds under the property names that [Agent.ts] reads
    after a cast, by its variant. *)
Definition properties (answer : Response) : AnswerProperties :=
  match answer with
  | R_LogMsg _ => no_properties
  | R_ModStatus status =>
      {| prop_installed_mods := Some (installed_mods status);
         prop_did_remove_dlc := false;
         prop_manifest_xml := None; prop_existed := None |}
  | R_Mods mods =>
      {| prop_installed_mods := Some mods; prop_did_remove_dlc := false;
         prop_manifest_xml := None; prop_existed := None |}
  | R_ImportResult result => ImportResult_properties result
  | R_FixedPlayerData existed =>
      {| prop_installed_mods := None; prop_did_remove_dlc := false;
         prop_manifest_xml := None; prop_existed := Some existed |}
  | R_DowngradedManifest xml =>
      {| prop_installed_mods := None; prop_did_remove_dlc := false;
         prop_manifest_xml := Some xml; prop_existed := None |}
  | R_Patched patched =>
      {| prop_installed_mods := Some (patched_installed_mods patched);
         prop_did_remove_dlc := did_remove_dlc patched;
         prop_manifest_xml := None; prop_existed := None |}
  end.

(** [CORE_MOD_OVERRIDE_URL] is the module-level variable, read when the
    request is built.  [as Patched] checks nothing: the two properties are
    read off the answer whatever its variant, and the status built holds
    under [installed_mods] what was found there. *)
Definition patchApp (CORE_MOD_OVERRIDE_URL : option string) (run : AgentRun)
    (beforePatch : ModStatus) (downgradeToVersion : option string)
    (manifestMod : string) (remodding allow_no_core_mods : bool)
    (eventSink : LogEventSink) : M (ModStatusOf (option (list Mod))) :=
  tell (Console c_log ["Patching with manifest"; manifestMod]) ;;;
  response <- sendRequest run
                (Patch downgradeToVersion manifestMod allow_no_core_mods
                       CORE_MOD_OVERRIDE_URL remodding) eventSink ;;
  (if prop_did_remove_dlc (properties response)
   then tell (ToastWarning dlc_warning)
   else ret tt) ;;;
  version <- match downgradeToVersion with
             | Some v => ret v
             | None =>
                 match app_info beforePatch with
                 | Some info => ret (version info)
                 | None => throw (null_property "version")
                 end
             end ;;
  supported <- match core_mods beforePatch with
               | Some core => ret (supported_versions core)
               | None => throw (null_property "supported_versions")
               end ;;
  ret {| app_info := Some {| loader_installed := "Scotland2";
                             version := version;
                             manifest_xml := manifestMod |};
         core_mods := Some {| all_core_mods_installed := true;
                              supported_versions := supported;
                              downgrade_versions := [] |};
         modloader_present := true;
         installed_mods := prop_installed_mods (properties response) |}.

End Session.

(** ** The observer as the callback it is

    [logInfo] and the loop of [sendRequest] above are written for an
    observer that returns normally and leaves the event it is handed as it
    is.  Here the event sink is any callback: [react s event] is how the call
    [s(event)] ends, with the event object as the callback left it, or with
    what it threw.  The source calls it unguarded, on the very object whose
    [level] it tests and latches next.  (What a callback does to an event
    after it has returned is not followed.) *)

Inductive Reply :=
| Returns (event : LogMsg)
| Throws (reason : string).

Module Callback.

Section Calling.
Context `{Ext : Externals}.
Variable react : Sink -> LogMsg -> Reply.

(** [eventSink(event)], when the sink is not null: the event afterwards. *)
Definition notify (eventSink : LogEventSink) (event : LogMsg) : M LogMsg :=
  match eventSink with
  | Some s =>
      tell (SinkCall s event) ;;;
      match react s event with
      | Returns after => ret after
      | Throws reason => throw reason
      end
  | None => ret event
  end.

Definition logInfo (sink : LogEventSink) (msg : string) : M unit :=
  tell (Console c_log [msg]) ;;;
  notify sink {| level := Info; message := msg |} ;;;
  ret tt.

Definition dispatch (eventSink : LogEventSink) (response : option Response)
    (msg_obj : Response) : M (option Response) :=
  match msg_obj with
  | R_LogMsg log_obj =>
      logFromAgent log_obj ;;;
      log_obj <- notify eventSink log_obj ;;
      match level log_obj with
      | Error => ret (Some (R_LogMsg log_obj))
      | _ => ret response
      end
  | _ => ret (Some msg_obj)
  end.

Fixpoint for_messages (eventSink : LogEventSink) (response : option Response)
    (messages : list string) : M (option Response) :=
  match messages with
  | [] => ret response
  | text :: rest =>
      msg_obj <- parse_message text ;;
      response <- dispatch eventSink response msg_obj ;;
      for_messages eventSink response rest
  end.

Definition on_chunk (eventSink : LogEventSink) (st : LoopState)
    (receivedStr : string) : M LoopState :=
  let buffer := buffer st ++ receivedStr in
  let messages := JsString.split JsString.newline buffer in
  let buffer := nth (length messages - 1) messages EmptyString in
  response <- for_messages eventSink (response st)
                (firstn (length messages - 1) messages) ;;
  ret {| buffer := buffer; response := response |}.

Fixpoint read_loop (eventSink : LogEventSink) (st : LoopState)
    (reads : list (option string)) : M LoopState :=
  match reads with
  | [] => ret st
  | None :: rest => read_loop eventSink st rest
  | Some receivedStr :: rest =>
      st <- on_chunk eventSink st receivedStr ;;
      read_loop eventSink st rest
  end.

Definition sendRequest (run : AgentRun) (request : Request)
    (eventSink : LogEventSink) : M Response :=
  let command_buffer := JSON_stringify request ++ String JsString.newline "" in
  tell (Spawn AgentPath) ;;;
  tell (StdinWrite command_buffer) ;;;
  tell (Console c_group ["Agent Request"]) ;;;
  st <- read_loop eventSink initial_state (stdout_reads run) ;;
  tell (Console c_groupEnd []) ;;;
  resolve run (response st).

(** The observer the rest of the file assumes. *)
Definition well_behaved (s : Sink) : Prop :=
  forall event, react s event = Returns event.

(** The sink is null, or a callback that returns and leaves the event as
    it is. *)
Definition harmless (eventSink : LogEventSink) : Prop :=
  match eventSink with
  | Some s => well_behaved s
  | None => True
  end.

End Calling.

End Callback.

(** ** Provisioning: [downloadAgent], [saveAgent], [overwriteAgent],
    [prepareAgent] *)

(** How one [XMLHttpRequest] went: [onload] with a status and a body, or
    [onerror]. *)
Inductive XhrEnd :=
| Loaded (status : Z) (response : list Byte.byte)
| NetworkError (status : Z).

(** One [onprogress] call, with the clock read inside it. *)
Record ProgressEvent := {
  lengthComputable : bool;
  loaded : N;
  total : N;
  timeNow : Z
}.

Record XhrRun := {
  startTime : Z;
  progress : list ProgressEvent;
  finish : XhrEnd
}.

(** How the promise of [sync.write] settles, and when (milliseconds after
    the race was started). *)
Inductive Settled := Fulfilled | Rejected (reason : string).

Inductive WriteRun :=
| SettlesAt (ms : Z) (how : Settled)
| NeverSettles.

(** What the device, the hosting endpoint and the scheduler answer during
    one provisioning: the standard output of the [sha1sum] pipeline, the
    n-th [XMLHttpRequest] sent (from 0), the write of the agent, and which
    callback runs first when the write settles in the very millisecond the
    timer is due. *)
Record Environment := {
  sha1sum_stdout : string;
  xhr_runs : nat -> XhrRun;
  write_run : WriteRun;
  timer_first_on_tie : bool
}.

Section Provisioning.
Context `{Ext : Externals}.

Definition MAX_ATTEMPTS : nat := 3.
Definition PROGRESS_UPDATE_INTERVAL : Z := 1000.

(** The [xhr.onprogress] handler over the progress events of one request;
    [lastReadTime] is the variable it closes over. *)
Fixpoint onprogress (eventSink : LogEventSink) (lastReadTime : Z)
    (ticks : list ProgressEvent) : M unit :=
  match ticks with
  | [] => ret tt
  | event :: rest =>
      if negb (lengthComputable event) then onprogress eventSink lastReadTime rest
      else if (timeNow event - lastReadTime >? PROGRESS_UPDATE_INTERVAL)%Z then
        logInfo eventSink
          ("Download " ++ percent_text (loaded event) (total event) ++ "% complete") ;;;
        onprogress eventSink (timeNow event) rest
      else onprogress eventSink lastReadTime rest
  end.

(** How the promise wrapped around one request settles: [inl] the body it
    resolved with ([onload] with a 2xx status), [inr] the status it rejected
    with. *)
Definition xhr_settles (how : XhrEnd) : list Byte.byte + Z :=
  match how with
  | Loaded status response =>
      if ((status >=? 200) && (status <? 300))%Z then inl response
      else inr status
  | NetworkError status => inr status
  end.

Definition xhr_promise (eventSink : LogEventSink) (x : XhrRun)
    : M (list Byte.byte + Z) :=
  tell (XhrSend "GET" "mbf-agent") ;;;
  onprogress eventSink (startTime x) (progress x) ;;;
  ret (xhr_settles (finish x)).

Definition fetch_failed_message : string :=
  "Failed to fetch agent after multiple attempts." ++ String JsString.newline
  "Did you lose internet connection just after you loaded the site?" ++
  String JsString.newline (String JsString.newline
  "If not, then please report this issue, including a screenshot of the browser console window!").

Definition retry_message (attempt : nat) : string :=
  "Failed to download agent, trying again... (attempt "
  ++ JsString.of_number (Z.of_nat attempt) ++ "/"
  ++ JsString.of_number (Z.of_nat MAX_ATTEMPTS) ++ ")".

(** The [catch] block and what follows it in the loop body, for the
    status [e] the promise rejected with and the value of [attempt] on
    entry: the events, and [attempt] after the increment. *)
Definition after_failure (eventSink : LogEventSink) (e : Z) (attempt : nat)
    : M nat :=
  logInfo eventSink ("Failed to fetch agent, status " ++ JsString.of_number e) ;;;
  let attempt := attempt + 1 in
  (if (attempt <=? MAX_ATTEMPTS)%nat then logInfo eventSink (retry_message attempt)
   else ret tt) ;;;
  ret attempt.

(** The [do ... while(!ok && attempt <= MAX_ATTEMPTS)] loop, entered with
    [attempt] and with [sent] requests made so far, followed by the [throw]
    after it.  [ok] is never assigned after its initialisation. *)
Equations? downloadAgent_loop (eventSink : LogEventSink) (network : nat -> XhrRun)
    (ok : bool) (attempt sent : nat) : M (list Byte.byte)
    by wf (S MAX_ATTEMPTS - attempt) lt :=
  downloadAgent_loop eventSink network ok attempt sent
    with xhr_promise eventSink (network sent) := {
    | (t, Returned (inl response)) :=
        (t, Returned tt) ;;;
        logInfo eventSink "Download complete, getting byte array from response" ;;;
        ret response
    | (t, Returned (inr e))
        with inspect (negb ok && (attempt + 1 <=? MAX_ATTEMPTS)%nat) := {
        | exist _ true again :=
            (t, Returned tt) ;;;
            after_failure eventSink e attempt ;;;
            downloadAgent_loop eventSink network ok (attempt + 1) (S sent)
        | exist _ false _ :=
            (t, Returned tt) ;;;
            after_failure eventSink e attempt ;;;
            throw fetch_failed_message }
    | (t, Thrown reason) := (t, Thrown reason)
    | (t, IllTyped) := (t, IllTyped) }.
Proof.
  apply andb_true_iff in again. destruct again as [_ again].
  apply Nat.leb_le in again. unfold MAX_ATTEMPTS in again.
  assert (bound : attempt <= 2) by lia. clear again.
  destruct attempt as [|[|[|]]]; unfold MAX_ATTEMPTS; cbn; lia.
Qed.

Definition downloadAgent (eventSink : LogEventSink) (network : nat -> XhrRun)
    : M (list Byte.byte) :=
  downloadAgent_loop eventSink network false 1 0.

Definition AGENT_UPLOAD_TIMEOUT : Z := 30.

Definition upload_timeout_message : string :=
  "Did not finish pushing agent after " ++ JsString.of_number AGENT_UPLOAD_TIMEOUT
  ++ " seconds." ++ String JsString.newline
  "In practice, pushing the agent takes less than a second, so this is a bug. Please report this issue including information about "
  ++ "which web browser you are using.".

(** [Promise.race([timeoutPromise, write])]: the promise that settles first
    decides; the timer rejects [delay] milliseconds after the start. *)
Definition race_timeout (delay : Z) (timer_first : bool) (reason : string)
    (write : WriteRun) : M unit :=
  match write with
  | NeverSettles => throw reason
  | SettlesAt ms how =>
      if ((delay <? ms) || ((delay =? ms) && timer_first))%Z then throw reason
      else match how with
           | Fulfilled => ret tt
           | Rejected why => throw why
           end
  end.

Definition saveAgent (env : Environment) (eventSink : LogEventSink) : M unit :=
  agent <- downloadAgent eventSink (xhr_runs env) ;;
  logInfo eventSink "Got bytes, converting into readable stream" ;;;
  logInfo eventSink "Writing agent to quest!" ;;;
  tell (SyncWrite AgentPath agent) ;;;
  race_timeout (AGENT_UPLOAD_TIMEOUT * 1000) (timer_first_on_tie env)
    upload_timeout_message (write_run env).

Definition overwriteAgent (env : Environment) (eventSink : LogEventSink) : M unit :=
  tell SyncOpen ;;;
  tell (Console c_group ["Downloading and overwriting agent on Quest"]) ;;;
  finally
    (logInfo eventSink "Removing existing agent" ;;;
     tell (SpawnAndWait ("rm " ++ AgentPath)) ;;;
     logInfo eventSink "Downloading agent, this might take a minute if it's not cached" ;;;
     saveAgent env eventSink ;;;
     logInfo eventSink "Making agent executable" ;;;
     tell (SpawnAndWait ("chmod +x " ++ AgentPath)) ;;;
     logInfo eventSink "Agent is ready")
    [SyncDispose; Console c_groupEnd []].

Definition double_quote : string := String "034"%char "".

Definition sha1sum_command : string :=
  "sha1sum " ++ AgentPath ++ " | cut -f 1 -d " ++ double_quote ++ " " ++ double_quote.

Definition prepareAgent (env : Environment) (eventSink : LogEventSink) : M unit :=
  logInfo eventSink "Preparing agent: used to communicate with your Quest." ;;;
  tell (Console c_log ["Latest agent SHA1 " ++ AGENT_SHA1]) ;;;
  tell (SpawnAndWait sha1sum_command) ;;;
  let exsitingSha1 := JsString.toUpperCase (JsString.trim (sha1sum_stdout env)) in
  tell (Console c_log ["Existing agent SHA1: " ++ exsitingSha1]) ;;;
  let existingUpToDate :=
    String.eqb AGENT_SHA1 (JsString.toUpperCase (JsString.trim exsitingSha1)) in
  if existingUpToDate then logInfo eventSink "Agent is up to date"
  else overwriteAgent env eventSink.

End Provisioning.

(** ** The requests built on [sendRequest] *)

(** A file picked by the user: its name and its bytes. *)
Record File := { name : string; arrayBuffer : list Byte.byte }.

Section Requests.
Context `{Ext : Externals}.

(** [CORE_MOD_OVERRIDE_URL] is a module-level variable, [null] at first;
    the functions that read it take its current value. *)
Definition initial_core_mod_override_url : option string := None.

Definition setCoreModOverrideUrl (core_mod_override_url : option string)
    (CORE_MOD_OVERRIDE_URL : option string) : option string :=
  core_mod_override_url.

(** The casts of a whole answer to the type the function declares: the
    answer is handed back as it is, and on another variant what is handed
    back is not of that type. *)
Definition as_ModStatus (answer : Response) : M ModStatus :=
  match answer with R_ModStatus status => ret status | _ => ([], IllTyped) end.

Definition as_ImportResult (answer : Response) : M ImportResult :=
  match answer with R_ImportResult result => ret result | _ => ([], IllTyped) end.

(** The casts followed by the reading of one property: the cast checks
    nothing and the property is read off the answer whatever its variant. *)
Definition as_Mods (answer : Response) : M (option (list Mod)) :=
  ret (prop_installed_mods (properties answer)).

Definition as_DowngradedManifest (answer : Response) : M (option string) :=
  ret (prop_manifest_xml (properties answer)).

Definition as_FixedPlayerData (answer : Response) : M (option bool) :=
  ret (prop_existed (properties answer)).

Definition loadModStatus (CORE_MOD_OVERRIDE_URL : option string)
    (env : Environment) (run : AgentRun) (eventSink : LogEventSink) : M ModStatus :=
  prepareAgent env eventSink ;;;
  answer <- sendRequest run (GetModStatus CORE_MOD_OVERRIDE_URL) eventSink ;;
  as_ModStatus answer.

Definition setModStatuses (run : AgentRun) (changesRequested : list (string * bool))
    (eventSink : LogEventSink) : M (option (list Mod)) :=
  response <- sendRequest run (SetModsEnabled changesRequested) eventSink ;;
  as_Mods response.

Definition getDowngradedManifest (run : AgentRun) (gameVersion : string)
    (eventSink : LogEventSink) : M (option string) :=
  response <- sendRequest run (GetDowngradedManifest gameVersion) eventSink ;;
  as_DowngradedManifest response.

(** [upload] is how the promise of [sync.write] settles. *)
Definition importFile (upload : Settled) (run : AgentRun) (file : File)
    (eventSink : LogEventSink) : M ImportResult :=
  tell SyncOpen ;;;
  let tempPath := "/data/local/tmp/mbf-uploads/" ++ name file in
  finally
    (tell (Console c_log ["Uploading to " ++ tempPath]) ;;;
     tell (SyncWrite tempPath (arrayBuffer file)) ;;;
     match upload with
     | Fulfilled => ret tt
     | Rejected why => throw why
     end ;;;
     response <- sendRequest run (Import tempPath) eventSink ;;
     as_ImportResult response)
    [SyncDispose].

Definition importUrl (run : AgentRun) (url : string) (eventSink : LogEventSink)
    : M ImportResult :=
  response <- sendRequest run (ImportUrl url) eventSink ;;
  as_ImportResult response.

Definition removeMod (run : AgentRun) (mod_id : string) (eventSink : LogEventSink)
    : M (option (list Mod)) :=
  response <- sendRequest run (RemoveMod mod_id) eventSink ;;
  as_Mods response.

Definition quickFix (CORE_MOD_OVERRIDE_URL : option string) (run : AgentRun)
    (beforeFix : ModStatus) (wipe_existing_mods : bool)
    (eventSink : LogEventSink) : M (ModStatusOf (option (list Mod))) :=
  response <- sendRequest run (QuickFix CORE_MOD_OVERRIDE_URL wipe_existing_mods)
                eventSink ;;
  core <- match core_mods beforeFix with
          | Some core => ret core
          | None => throw (null_property "supported_versions")
          end ;;
  mods <- as_Mods response ;;
  ret {| app_info := app_info beforeFix;
         core_mods := Some {| all_core_mods_installed := true;
                              supported_versions := supported_versions core;
                              downgrade_versions := downgrade_versions core |};
         modloader_present := true;
         installed_mods := mods |}.

Definition fixPlayerData (run : AgentRun) (eventSink : LogEventSink)
    : M (option bool) :=
  response <- sendRequest run FixPlayerData eventSink ;;
  as_FixedPlayerData response.

End Requests.

(** ** [DeviceModder.tsx]: what is shown, and the patch button

    The component is written against the earlier [Messages.ts]: a status
    holds the application's version and whether it is modded, and the list
    of supported versions. *)

Module DeviceModder.

Section View.
Context `{Payloads}.

Record AppInfo := { version : string; is_modded : bool }.

Record ModStatus := {
  app_info : option AppInfo;
  supported_versions : option (list string);
  installed_mods : list Mod
}.

(** The element the component returns. *)
Inductive View :=
| AppIsBeingPatched
| CheckingInstallation
| NotInstalled
| NoInternet
| NotSupported (version : string) (supportedVersions : list string)
| AppIsModded (cards : list Mod)
| PatchingMenu (version : string).

(** [versions.includes(v)] *)
Definition includes (versions : list string) (v : string) : bool :=
  existsb (String.eqb v) versions.

(** The body of [DeviceModder] for the two pieces of state. *)
Definition render (isPatching : bool) (modStatus : option ModStatus) : View :=
  if isPatching then AppIsBeingPatched
  else match modStatus with
       | None => CheckingInstallation
       | Some status =>
           match app_info status with
           | None => NotInstalled
           | Some info =>
               match supported_versions status with
               | None => NoInternet
               | Some supported =>
                   if negb (includes supported (version info))
                   then NotSupported (version info) supported
                   else if is_modded info then AppIsModded (installed_mods status)
                   else PatchingMenu (version info)
               end
           end
       end.

Record State := { isPatching : bool; modStatus : option ModStatus }.

(** What is shown when the component is first mounted, before
    [loadModStatus] has answered. *)
Definition mounted : State := {| isPatching := false; modStatus := None |}.

(** The state while the [onPatch] handler awaits [patchApp]. *)
Definition onPatch_started (st : State) : State :=
  {| isPatching := true; modStatus := modStatus st |}.

(** The [onPatch] handler of the menu rendered for [status], run to its end:
    [patched] is how [patchApp] ended.  The status object is the one in
    the state: the assignment to [is_modded] is seen through it. *)
Definition onPatch (patched : Result unit) (status : ModStatus)
    : State * Result unit :=
  match patched with
  | Returned _ =>
      match app_info status with
      | Some info =>
          let status :=
            {| app_info := Some {| version := version info; is_modded := true |};
               supported_versions := supported_versions status;
               installed_mods := installed_mods status |} in
          ({| isPatching := false; modStatus := Some status |}, Returned tt)
      | None =>
          ({| isPatching := false; modStatus := Some status |},
           Thrown "Cannot set properties of null (setting 'is_modded')")
      end
  | Thrown reason =>
      ({| isPatching := false; modStatus := Some status |}, Thrown reason)
  | IllTyped =>
      ({| isPatching := false; modStatus := Some status |}, IllTyped)
  end.

End View.

End DeviceModder.

(** ** What the properties observe *)

Section Observations.
Context `{Ext : Externals}.

(** The text delivered by a sequence of reads. *)
Fixpoint received (reads : list (option string)) : string :=
  match reads with
  | [] => ""
  | None :: rest => received rest
  | Some chunk :: rest => chunk ++ received rest
  end.

(** The newline-terminated segments of a text, and what follows the last
    newline. *)
Definition complete_frames (text : string) : list string :=
  removelast (JsString.split JsString.newline text).

Definition partial_frame (text : string) : string :=
  last (JsString.split JsString.newline text) "".

(** The texts handed to [JSON.parse], in order. *)
Fixpoint parsed_frames (t : list Event) : list string :=
  match t with
  | [] => []
  | JSONParse text :: rest => text :: parsed_frames rest
  | _ :: rest => parsed_frames rest
  end.

Definition is_sink_call (e : Event) : bool :=
  match e with SinkCall _ _ => true | _ => false end.

(** The events other than the notifications of the observer. *)
Definition without_sink (t : list Event) : list Event :=
  filter (fun e => negb (is_sink_call e)) t.

(** A computation with the notifications of the observer left out. *)
Definition silenced {A} (m : M A) : M A := (without_sink (events m), outcome m).

(** The notifications delivered to the observer, in order. *)
Fixpoint sink_calls (t : list Event) : list LogMsg :=
  match t with
  | [] => []
  | SinkCall _ event :: rest => event :: sink_calls rest
  | _ :: rest => sink_calls rest
  end.

(** The value latched once a decoded message has gone through the loop
    body. *)
Definition latch (latched : option Response) (msg : Response) : option Response :=
  match msg with
  | R_LogMsg log =>
      match level log with
      | Error => Some msg
      | _ => latched
      end
  | _ => Some msg
  end.

(** A latched log message is an [Error] one. *)
Definition fallback_only (latched : option Response) : Prop :=
  forall log, latched = Some (R_LogMsg log) -> level log = Error.

(** What [sendRequest] does before it enters the loop. *)
Definition session_prologue (request : Request) : list Event :=
  [Spawn AgentPath;
   StdinWrite (JSON_stringify request ++ String JsString.newline "");
   Console c_group ["Agent Request"]].

(** What reaches the device or the network: everything but the console,
    the observer, the JSON decoder and the toast. *)
Definition is_remote (e : Event) : bool :=
  match e with
  | Spawn _ | StdinWrite _ | SpawnAndWait _ | SyncOpen | SyncWrite _ _
  | SyncDispose | XhrSend _ _ => true
  | Console _ _ | SinkCall _ _ | JSONParse _ | ToastWarning _ => false
  end.

Definition remote_actions (t : list Event) : list Event := filter is_remote t.

Definition is_fetch (e : Event) : bool :=
  match e with XhrSend _ _ => true | _ => false end.

(** The number of requests sent to the hosting endpoint. *)
Definition attempts (t : list Event) : nat := length (filter is_fetch t).

(** A text that starts with no white space. *)
Definition starts_clean (s : string) : Prop :=
  match s with
  | EmptyString => True
  | String c _ => JsString.is_space c = false
  end.

(** Equality up to ASCII case. *)
Definition same_ignoring_case (a b : string) : Prop :=
  JsString.toUpperCase a = JsString.toUpperCase b.

(** The request failed: [onerror], or [onload] with a status outside 2xx. *)
Definition xhr_fails (x : XhrRun) : Prop :=
  exists status, xhr_settles (finish x) = inr status.

End Observations.

Section MoreObservations.
Context `{Ext : Externals}.

(** The messages decoded from the frames, up to the first frame that
    [JSON.parse] refuses. *)
Fixpoint decoded_prefix (frames : list string) : list Response :=
  match frames with
  | [] => []
  | text :: rest =>
      match JSON_parse text with
      | Some msg => msg :: decoded_prefix rest
      | None => []
      end
  end.

(** The frames handed to [JSON.parse] when the frames are visited in order
    until one is refused: those before the first refused one, and it. *)
Fixpoint handed_to_parser (frames : list string) : list string :=
  match frames with
  | [] => []
  | text :: rest =>
      text :: match JSON_parse text with
              | Some _ => handed_to_parser rest
              | None => []
              end
  end.

(** The first frame that [JSON.parse] refuses. *)
Fixpoint first_refused (frames : list string) : option string :=
  match frames with
  | [] => None
  | text :: rest =>
      match JSON_parse text with
      | Some _ => first_refused rest
      | None => Some text
      end
  end.

(** The log messages among decoded messages. *)
Fixpoint logs_of (msgs : list Response) : list LogMsg :=
  match msgs with
  | [] => []
  | R_LogMsg log :: rest => log :: logs_of rest
  | _ :: rest => logs_of rest
  end.

(** A text without the newline character. *)
Fixpoint no_newline (s : string) : bool :=
  match s with
  | EmptyString => true
  | String c rest => negb (Ascii.eqb c JsString.newline) && no_newline rest
  end.

(** The progress messages logged for one request. *)
Definition progress_logs (startTime : Z) (ticks : list ProgressEvent) : nat :=
  length (events (onprogress None startTime ticks)).

(** The request that succeeds first, when the requests are tried from the
    n-th on and [budget] of them may be sent: its index and its body. *)
Fixpoint first_success (network : nat -> XhrRun) (n budget : nat)
    : option (nat * list Byte.byte) :=
  match budget with
  | 0 => None
  | S budget =>
      match xhr_settles (finish (network n)) with
      | inl body => Some (n, body)
      | inr _ => first_success network (S n) budget
      end
  end.

Definition fetch_request : Event := XhrSend "GET" "mbf-agent".
Definition remove_agent : Event := SpawnAndWait ("rm " ++ AgentPath).
Definition make_executable : Event := SpawnAndWait ("chmod +x " ++ AgentPath).
Definition hash_agent : Event := SpawnAndWait sha1sum_command.

Definition is_toast (e : Event) : bool :=
  match e with ToastWarning _ => true | _ => false end.

(** The warnings shown to the user. *)
Definition toasts (t : list Event) : list Event := filter is_toast t.

(** Where [importFile] puts the file on the device. *)
Definition upload_path (file : File) : string :=
  "/data/local/tmp/mbf-uploads/" ++ name file.

(** The write of the agent wins the race against the timer. *)
Definition write_in_time (env : Environment) : Prop :=
  exists ms, write_run env = SettlesAt ms Fulfilled /\ (ms < 30000)%Z.

(** The timer wins: the write has not settled after 30000 ms. *)
Definition write_too_late (env : Environment) : Prop :=
  forall ms how, write_run env = SettlesAt ms how -> (30000 < ms)%Z.

End MoreObservations.

(** ** Concrete inputs

    A runtime whose decoder knows four frames, and the runs the examples
    below use. *)

Module Sample.

#[export] Instance payloads : Payloads :=
  {| Mod := string; ImportResult := unit; Sink := nat |}.

Definition q (s : string) : string := double_quote ++ s ++ double_quote.

Definition log_frame (lvl msg : string) : string :=
  "{" ++ q "type" ++ ":" ++ q "LogMsg" ++ "," ++ q "level" ++ ":" ++ q lvl ++ ","
  ++ q "message" ++ ":" ++ q msg ++ "}".

Definition info_frame : string := log_frame "Info" "checking".
Definition error_frame : string := log_frame "Error" "boom".
Definition status_frame : string :=
  "{" ++ q "type" ++ ":" ++ q "ModStatus" ++ "," ++ q "installed_mods" ++ ":[]}".
Definition patched_frame : string :=
  "{" ++ q "type" ++ ":" ++ q "Patched" ++ "," ++ q "installed_mods" ++ ":["
  ++ q "songcore" ++ "]," ++ q "did_remove_dlc" ++ ":true}".

Definition info_msg : LogMsg := {| level := Info; message := "checking" |}.
Definition error_msg : LogMsg := {| level := Error; message := "boom" |}.

Definition empty_status : ModStatus :=
  {| app_info := None; core_mods := None; modloader_present := false;
     installed_mods := [] |}.

Definition patched : Patched :=
  {| patched_installed_mods := ["songcore"]; did_remove_dlc := true |}.

Definition frames : list (string * Response) :=
  [ (info_frame, R_LogMsg info_msg);
    (error_frame, R_LogMsg error_msg);
    (status_frame, R_ModStatus empty_status);
    (patched_frame, R_Patched patched) ].

Fixpoint lookup (table : list (string * Response)) (text : string)
    : option Response :=
  match table with
  | [] => None
  | (frame, msg) :: rest => if String.eqb frame text then Some msg else lookup rest text
  end.

Definition expected_sha1 : string := "DA39A3EE5E6B4B0D3255BFEF95601890AFD80709".

#[export] Instance externals : Externals :=
  {| JSON_parse := lookup frames;
     JSON_stringify := fun _ => "{}";
     AGENT_SHA1 := expected_sha1;
     percent_text := fun l t => JsString.of_number (Z.of_N (l * 100 / t));
     ImportResult_properties := fun _ => no_properties |}.

(** The same runtime built with the expected digest in lower case. *)
Definition lowercase_externals : Externals :=
  {| JSON_parse := lookup frames;
     JSON_stringify := fun _ => "{}";
     AGENT_SHA1 := "da39a3ee5e6b4b0d3255bfef95601890afd80709";
     percent_text := fun l t => JsString.of_number (Z.of_N (l * 100 / t));
     ImportResult_properties := fun _ => no_properties |}.

Definition nl : string := String JsString.newline "".

(** An observer, and the silent mode. *)
Definition observer : LogEventSink := Some 7.
Definition silent : LogEventSink := None.

(** The scenario of the specification: one [Info] log, then the status. *)
Definition scenario_run : AgentRun :=
  {| stdout_reads := [Some (info_frame ++ nl ++ status_frame ++ nl)];
     exit_code := 0;
     stderr_chunks := [] |}.

(** The same bytes, cut inside the first frame, with an empty chunk and an
    ended read in between. *)
Definition scenario_run_split : AgentRun :=
  {| stdout_reads := [Some "{"; Some ""; None;
                      Some (substring 1 200 (info_frame ++ nl ++ status_frame));
                      Some nl];
     exit_code := 0;
     stderr_chunks := [] |}.

(** An [Info] log, an [Error] log, then the status all the same. *)
Definition recovered_run : AgentRun :=
  {| stdout_reads := [Some (info_frame ++ nl ++ error_frame);
                      Some (nl ++ status_frame ++ nl)];
     exit_code := 0;
     stderr_chunks := [] |}.

(** The agent reports an error and exits normally. *)
Definition refused_run : AgentRun :=
  {| stdout_reads := [Some (info_frame ++ nl ++ error_frame ++ nl)];
     exit_code := 0;
     stderr_chunks := [] |}.

(** The agent exits normally without a word; what it started to write
    never saw its newline. *)
Definition mute_run : AgentRun :=
  {| stdout_reads := [None; Some status_frame];
     exit_code := 0;
     stderr_chunks := [] |}.

Definition garbage_run : AgentRun :=
  {| stdout_reads := [Some (info_frame ++ nl ++ "oops" ++ nl ++ status_frame ++ nl)];
     exit_code := 0;
     stderr_chunks := [] |}.

Definition crashed_run : AgentRun :=
  {| stdout_reads := [Some (status_frame ++ nl)];
     exit_code := 126;
     stderr_chunks := ["cannot execute"; " binary file"] |}.

Definition patch_run : AgentRun :=
  {| stdout_reads := [Some (info_frame ++ nl); Some (patched_frame ++ nl)];
     exit_code := 0;
     stderr_chunks := [] |}.

Definition before_patch : ModStatus :=
  {| app_info := Some {| loader_installed := "Unknown"; version := "1.37.0";
                         manifest_xml := "<manifest/>" |};
     core_mods := Some {| all_core_mods_installed := false;
                          supported_versions := ["1.37.0"; "1.35.0"];
                          downgrade_versions := ["1.35.0"] |};
     modloader_present := false;
     installed_mods := [] |}.

Definition payload : list Byte.byte := [Byte.x7f; Byte.x45; Byte.x4c; Byte.x46].

Definition quiet (how : XhrEnd) : XhrRun :=
  {| startTime := 0; progress := []; finish := how |}.

(** Two failures (a network error, then a 503), then the body. *)
Definition flaky_network (n : nat) : XhrRun :=
  match n with
  | 0 => quiet (NetworkError 0)
  | 1 => quiet (Loaded 503 [])
  | _ => quiet (Loaded 200 payload)
  end.

Definition dead_network (n : nat) : XhrRun := quiet (NetworkError 0).

Definition good_network (n : nat) : XhrRun :=
  {| startTime := 0;
     progress := [ {| lengthComputable := true; loaded := 1; total := 4; timeNow := 400 |};
                   {| lengthComputable := true; loaded := 2; total := 4; timeNow := 1200 |};
                   {| lengthComputable := false; loaded := 3; total := 0; timeNow := 2500 |};
                   {| lengthComputable := true; loaded := 4; total := 4; timeNow := 2600 |} ];
     finish := Loaded 200 payload |}.

Definition up_to_date_device : Environment :=
  {| sha1sum_stdout := "da39a3ee5e6b4b0d3255bfef95601890afd80709" ++ nl;
     xhr_runs := good_network;
     write_run := SettlesAt 120 Fulfilled;
     timer_first_on_tie := false |}.

Definition stale_device : Environment :=
  {| sha1sum_stdout := "";
     xhr_runs := good_network;
     write_run := SettlesAt 120 Fulfilled;
     timer_first_on_tie := false |}.

Definition slow_device : Environment :=
  {| sha1sum_stdout := "";
     xhr_runs := good_network;
     write_run := SettlesAt 31000 Fulfilled;
     timer_first_on_tie := false |}.

(** A stale device with no way to the hosting endpoint. *)
Definition offline_device : Environment :=
  {| sha1sum_stdout := "";
     xhr_runs := dead_network;
     write_run := SettlesAt 120 Fulfilled;
     timer_first_on_tie := false |}.

(** A stale device that refuses the write at once. *)
Definition full_device : Environment :=
  {| sha1sum_stdout := "";
     xhr_runs := flaky_network;
     write_run := SettlesAt 40 (Rejected "No space left on device");
     timer_first_on_tie := false |}.

Definition before_fix : ModStatus :=
  {| app_info := None;
     core_mods := Some {| all_core_mods_installed := false;
                          supported_versions := ["1.37.0"];
                          downgrade_versions := ["1.35.0"] |};
     modloader_present := false;
     installed_mods := ["songcore"] |}.

Definition mods_frame : string :=
  "{" ++ q "type" ++ ":" ++ q "Mods" ++ "," ++ q "installed_mods" ++ ":["
  ++ q "bsml" ++ "]}".

(** A runtime that also decodes a [Mods] answer. *)
Definition mods_externals : Externals :=
  {| JSON_parse := lookup ((mods_frame, R_Mods ["bsml"]) :: frames);
     JSON_stringify := fun _ => "{}";
     AGENT_SHA1 := expected_sha1;
     percent_text := fun l t => JsString.of_number (Z.of_N (l * 100 / t));
     ImportResult_properties := fun _ => no_properties |}.

Definition fix_run : AgentRun :=
  {| stdout_reads := [Some (mods_frame ++ nl)];
     exit_code := 0;
     stderr_chunks := [] |}.

Definition song : File :=
  {| name := "song.zip"; arrayBuffer := [Byte.x50; Byte.x4b] |}.

(** What the component holds for an unmodded game of a supported
    version. *)
Definition unmodded_status : DeviceModder.ModStatus :=
  {| DeviceModder.app_info :=
       Some {| DeviceModder.version := "1.37.0"; DeviceModder.is_modded := false |};
     DeviceModder.supported_versions := Some ["1.35.0"; "1.37.0"];
     DeviceModder.installed_mods := ["songcore"] |}.

(** A modded game of a version that is no longer supported. *)
Definition outdated_status : DeviceModder.ModStatus :=
  {| DeviceModder.app_info :=
       Some {| DeviceModder.version := "1.28.0"; DeviceModder.is_modded := true |};
     DeviceModder.supported_versions := Some ["1.35.0"; "1.37.0"];
     DeviceModder.installed_mods := ["songcore"] |}.

(** A callback that throws on every event. *)
Definition throwing (s : Sink) (event : LogMsg) : Reply := Throws "observer failed".

(** A callback that returns, having marked the event as an error. *)
Definition escalating (s : Sink) (event : LogMsg) : Reply :=
  Returns {| level := Error; message := message event |}.

(** A callback that reads the event and returns. *)
Definition recording (s : Sink) (event : LogMsg) : Reply := Returns event.

(** One [Info] log and nothing more. *)
Definition info_only_run : AgentRun :=
  {| stdout_reads := [Some (info_frame ++ nl)];
     exit_code := 0;
     stderr_chunks := [] |}.

(** What [patchApp] builds from [before_patch] and [patch_run]. *)
Definition built_after_patch : ModStatusOf (option (list Mod)) :=
  {| app_info := Some {| loader_installed := "Scotland2"; version := "1.37.0";
                         manifest_xml := "<manifest/>" |};
     core_mods := Some {| all_core_mods_installed := true;
                          supported_versions := ["1.37.0"; "1.35.0"];
                          downgrade_versions := [] |};
     modloader_present := true;
     installed_mods := Some ["songcore"] |}.

(** The agent answers the patch with a status. *)
Definition wrong_answer_run : AgentRun := scenario_run.

(** The status first, then an [Error] log. *)
Definition late_error_run : AgentRun :=
  {| stdout_reads := [Some (status_frame ++ nl ++ error_frame ++ nl)];
     exit_code := 0;
     stderr_chunks := [] |}.

(** The status first, then an [Info] log. *)
Definition chatty_run : AgentRun :=
  {| stdout_reads := [Some (status_frame ++ nl); Some (info_frame ++ nl)];
     exit_code := 0;
     stderr_chunks := [] |}.

End Sample.

(** * Properties *)

(** ** Splitting on a separator *)

Section SplitFacts.
Import JsString.
Variable sep : ascii.

Lemma split_nonempty (s : string) : split sep s <> [].
Proof.
  destruct s as [|c rest]; simpl; [discriminate|].
  destruct (Ascii.eqb c sep); [discriminate|].
  destruct (split sep rest); discriminate.
Qed.

Lemma removelast_cons_nonempty {A} (x : A) (l : list A) :
  l <> [] -> removelast (x :: l) = x :: removelast l.
Proof. destruct l; [congruence | reflexivity]. Qed.

Lemma last_cons_nonempty {A} (x d : A) (l : list A) :
  l <> [] -> last (x :: l) d = last l d.
Proof. destruct l; [congruence | reflexivity]. Qed.

(** Splitting a concatenation: the complete segments of the first part,
    then the split of its trailing segment followed by the second part. *)
Lemma split_app (a b : string) :
  split sep (a ++ b) =
  (removelast (split sep a) ++ split sep (last (split sep a) "" ++ b))%list.
Proof.
  induction a as [|c a IH]; [reflexivity|].
  change (String c a ++ b) with (String c (a ++ b)).
  cbn [split]. destruct (Ascii.eqb c sep) eqn:Hc.
  - rewrite removelast_cons_nonempty, last_cons_nonempty by apply split_nonempty.
    rewrite IH. reflexivity.
  - rewrite IH. pose proof (split_nonempty a) as Hne.
    destruct (split sep a) as [|seg segs]; [congruence|].
    destruct segs as [|seg' segs].
    + cbn [removelast last app].
      change (String c seg ++ b) with (String c (seg ++ b)).
      cbn [split]. rewrite Hc. reflexivity.
    + rewrite !removelast_cons_nonempty, !last_cons_nonempty by discriminate.
      reflexivity.
Qed.

Lemma nth_pred_length_last {A} (l : list A) (d : A) :
  nth (length l - 1) l d = last l d.
Proof.
  induction l as [|x l IH]; [reflexivity|].
  destruct l as [|y l]; [reflexivity|].
  change (last (x :: y :: l) d) with (last (y :: l) d). rewrite <- IH.
  cbn [length]. rewrite !Nat.sub_1_r. reflexivity.
Qed.

Lemma firstn_pred_length_removelast {A} (l : list A) :
  firstn (length l - 1) l = removelast l.
Proof. rewrite removelast_firstn_len, Nat.sub_1_r. reflexivity. Qed.

Lemma concat_cons_head (c : ascii) (seg : string) (segs : list string) (j : string) :
  String.concat j (String c seg :: segs) = String c (String.concat j (seg :: segs)).
Proof. destruct segs; reflexivity. Qed.

(** Joining the segments with the separator gives the text back. *)
Lemma concat_split (s : string) :
  String.concat (String sep "") (split sep s) = s.
Proof.
  induction s as [|c s IH]; [reflexivity|].
  cbn [split]. pose proof (split_nonempty s) as Hne.
  destruct (Ascii.eqb_spec c sep) as [->|Hc].
  - destruct (split sep s) as [|seg segs]; [congruence|].
    change (String.concat (String sep "") ("" :: seg :: segs))
      with (String sep (String.concat (String sep "") (seg :: segs))).
    rewrite IH. reflexivity.
  - destruct (split sep s) as [|seg segs]; [congruence|].
    rewrite concat_cons_head, IH. reflexivity.
Qed.

End SplitFacts.

Lemma last_app_nonempty {A} (l l' : list A) (d : A) :
  l' <> [] -> last (l ++ l') d = last l' d.
Proof.
  intros Hne. induction l as [|x l IH]; [reflexivity|].
  cbn [app]. rewrite last_cons_nonempty; [exact IH|].
  destruct l; [exact Hne | discriminate].
Qed.

Lemma app_removelast_last_nonempty {A} (l : list A) (d : A) :
  l <> [] -> (removelast l ++ [last l d])%list = l.
Proof. intros Hne. symmetry. apply app_removelast_last. exact Hne. Qed.

Lemma string_app_assoc (a b c : string) : (a ++ b) ++ c = a ++ b ++ c.
Proof. induction a as [|x a IH]; [reflexivity|]. simpl. rewrite IH. reflexivity. Qed.

Lemma string_app_empty_r (a : string) : a ++ "" = a.
Proof. induction a as [|x a IH]; [reflexivity|]. simpl. rewrite IH. reflexivity. Qed.

(** ** The laws of the event-recording computations *)

Section MonadFacts.
Context `{Payloads}.

Lemma bind_ret_l {A B} (a : A) (k : A -> M B) : bind (ret a) k = k a.
Proof. unfold bind, ret. destruct (k a). reflexivity. Qed.

Lemma bind_ret_r {A} (m : M A) : bind m ret = m.
Proof.
  destruct m as [t [a|reason|]]; simpl; try reflexivity.
  rewrite app_nil_r. reflexivity.
Qed.

Lemma bind_assoc {A B C} (m : M A) (f : A -> M B) (g : B -> M C) :
  bind (bind m f) g = bind m (fun a => bind (f a) g).
Proof.
  destruct m as [t [a|reason|]]; simpl; try reflexivity.
  destruct (f a) as [t2 [b|reason|]]; simpl; try reflexivity.
  destruct (g b) as [t3 r]. rewrite app_assoc. reflexivity.
Qed.

Lemma bind_ext {A B} (m : M A) (f g : A -> M B) :
  (forall a, f a = g a) -> bind m f = bind m g.
Proof.
  intros Hfg. destruct m as [t [a|reason|]]; simpl; try reflexivity.
  rewrite Hfg. reflexivity.
Qed.

Lemma bind_returned {A B} (m : M A) (k : A -> M B) (a : A) :
  outcome m = Returned a ->
  events (bind m k) = (events m ++ events (k a))%list /\
  outcome (bind m k) = outcome (k a).
Proof.
  destruct m as [t r]. unfold outcome, events. simpl. intros ->.
  destruct (k a). split; reflexivity.
Qed.

Lemma bind_thrown {A B} (m : M A) (k : A -> M B) (reason : string) :
  outcome m = Thrown reason ->
  events (bind m k) = events m /\ outcome (bind m k) = Thrown reason.
Proof.
  destruct m as [t r]. unfold outcome, events. simpl. intros ->.
  split; reflexivity.
Qed.

Lemma bind_pair_returned {A B} (t : list Event) (a : A) (k : A -> M B) :
  bind (t, Returned a) k = ((t ++ events (k a))%list, outcome (k a)).
Proof. unfold bind, events, outcome. destruct (k a). reflexivity. Qed.

Lemma bind_tell {B} (e : Event) (k : unit -> M B) :
  bind (tell e) k = (e :: events (k tt), outcome (k tt)).
Proof. unfold bind, tell, events, outcome. destruct (k tt). reflexivity. Qed.

End MonadFacts.

(** ** The framing loop *)

Section FramingFacts.
Context `{Ext : Externals}.
Import JsString.

Lemma split_segments_whole (sep : ascii) (s : string) :
  Forall (fun seg => split sep seg = [seg]) (split sep s).
Proof.
  induction s as [|c s IH]; [repeat constructor|].
  cbn [split]. destruct (Ascii.eqb c sep) eqn:Hc.
  - constructor; [reflexivity | exact IH].
  - pose proof (split_nonempty sep s) as Hne.
    destruct (split sep s) as [|seg segs]; [congruence|].
    inversion IH as [|? ? Hseg Hsegs]; subst.
    constructor; [|exact Hsegs].
    cbn [split]. rewrite Hc, Hseg. reflexivity.
Qed.

Lemma split_last_whole (sep : ascii) (s : string) :
  split sep (last (split sep s) "") = [last (split sep s) ""].
Proof.
  pose proof (split_segments_whole sep s) as Hall.
  pose proof (split_nonempty sep s) as Hne.
  induction (split sep s) as [|seg segs IH]; [congruence|].
  inversion Hall as [|? ? Hseg Hsegs]; subst.
  destruct segs as [|seg' segs]; [exact Hseg|].
  rewrite last_cons_nonempty by discriminate. apply IH; [exact Hsegs | discriminate].
Qed.

Lemma complete_frames_app (a b : string) :
  complete_frames (a ++ b) =
  (complete_frames a ++ complete_frames (partial_frame a ++ b))%list.
Proof.
  unfold complete_frames, partial_frame. rewrite split_app.
  apply removelast_app, split_nonempty.
Qed.

Lemma partial_frame_app (a b : string) :
  partial_frame (a ++ b) = partial_frame (partial_frame a ++ b).
Proof.
  unfold partial_frame. rewrite split_app.
  apply last_app_nonempty, split_nonempty.
Qed.

Lemma for_messages_app (eventSink : LogEventSink) (latched : option Response)
    (front back : list string) :
  for_messages eventSink latched (front ++ back) =
  (latched' <- for_messages eventSink latched front ;;
   for_messages eventSink latched' back).
Proof.
  revert latched. induction front as [|text front IH]; intros latched.
  - cbn [app for_messages]. rewrite bind_ret_l. reflexivity.
  - cbn [app for_messages]. rewrite bind_assoc. apply bind_ext. intros msg_obj.
    rewrite bind_assoc. apply bind_ext. intros latched'. apply IH.
Qed.

(** What one iteration does, in terms of the frames of the text. *)
Lemma on_chunk_frames (eventSink : LogEventSink) (st : LoopState) (chunk : string) :
  on_chunk eventSink st chunk =
  (latched <- for_messages eventSink (response st)
                (complete_frames (buffer st ++ chunk)) ;;
   ret {| buffer := partial_frame (buffer st ++ chunk); response := latched |}).
Proof.
  unfold on_chunk, complete_frames, partial_frame.
  rewrite nth_pred_length_last, firstn_pred_length_removelast. reflexivity.
Qed.

(** The loop from a state whose buffer holds no newline: the complete
    frames of everything received are handled in order, and what follows the
    last newline is kept. *)
Lemma read_loop_frames (eventSink : LogEventSink) (reads : list (option string)) :
  forall st : LoopState,
    split newline (buffer st) = [buffer st] ->
    read_loop eventSink st reads =
    (latched <- for_messages eventSink (response st)
                  (complete_frames (buffer st ++ received reads)) ;;
     ret {| buffer := partial_frame (buffer st ++ received reads);
            response := latched |}).
Proof.
  induction reads as [|[chunk|] reads IH]; intros st Hbuf.
  - cbn [read_loop received]. rewrite string_app_empty_r.
    unfold complete_frames, partial_frame. rewrite Hbuf. cbn.
    destruct st; reflexivity.
  - cbn [read_loop received]. rewrite on_chunk_frames, bind_assoc.
    rewrite <- string_app_assoc.
    rewrite (complete_frames_app (buffer st ++ chunk) (received reads)).
    rewrite (partial_frame_app (buffer st ++ chunk) (received reads)).
    rewrite for_messages_app, bind_assoc. apply bind_ext. intros latched.
    rewrite bind_ret_l. rewrite IH by apply split_last_whole. reflexivity.
  - cbn [read_loop received]. apply IH. exact Hbuf.
Qed.

Lemma read_loop_initial (eventSink : LogEventSink) (reads : list (option string)) :
  read_loop eventSink initial_state reads =
  (latched <- for_messages eventSink None (complete_frames (received reads)) ;;
   ret {| buffer := partial_frame (received reads); response := latched |}).
Proof. apply (read_loop_frames eventSink reads initial_state). reflexivity. Qed.

(** Nothing of the received text is lost: the complete frames and the kept
    partial frame, joined by newlines, are the text. *)
Lemma frames_rebuild_text (text : string) :
  String.concat (String newline "")
    (complete_frames text ++ [partial_frame text]) = text.
Proof.
  unfold complete_frames, partial_frame.
  rewrite app_removelast_last_nonempty by apply split_nonempty.
  apply concat_split.
Qed.

End FramingFacts.


(** ** The demultiplexer and the resolution *)

Section SessionFacts.
Context `{Ext : Externals}.

Lemma parsed_frames_app (t1 t2 : list Event) :
  parsed_frames (t1 ++ t2) = (parsed_frames t1 ++ parsed_frames t2)%list.
Proof.
  induction t1 as [|e t1 IH]; [reflexivity|].
  destruct e; cbn [app parsed_frames]; rewrite IH; reflexivity.
Qed.

Lemma logFromAgent_spec (log : LogMsg) :
  exists method, logFromAgent log = ([Console method [message log]], Returned tt).
Proof. unfold logFromAgent. destruct (level log); eexists; reflexivity. Qed.

(** The loop body on a decoded message: it returns, latches [latch], and
    hands nothing to [JSON.parse]. *)
Lemma dispatch_spec (eventSink : LogEventSink) (latched : option Response)
    (msg : Response) :
  outcome (dispatch eventSink latched msg) = Returned (latch latched msg)
  /\ parsed_frames (events (dispatch eventSink latched msg)) = [].
Proof.
  destruct msg as [log| | | | | |]; try (split; reflexivity).
  unfold dispatch, latch.
  destruct (logFromAgent_spec log) as [method ->].
  destruct eventSink as [s|]; destruct (level log); split; reflexivity.
Qed.

Lemma parse_message_decoded (text : string) (msg : Response) :
  JSON_parse text = Some msg ->
  parse_message text = ([JSONParse text], Returned msg).
Proof. unfold parse_message. intros ->. reflexivity. Qed.

Lemma parse_message_refused (text : string) :
  JSON_parse text = None ->
  parse_message text =
  ([JSONParse text], Thrown ("Agent message " ++ text ++ " was not valid JSON")).
Proof. unfold parse_message. intros ->. reflexivity. Qed.

(** Frames that all decode: the loop returns the fold of [latch] and has
    handed exactly these frames to [JSON.parse]. *)
Lemma for_messages_decoded (eventSink : LogEventSink) (frames : list string) :
  forall (msgs : list Response) (latched : option Response),
    map JSON_parse frames = map Some msgs ->
    outcome (for_messages eventSink latched frames)
    = Returned (fold_left latch msgs latched)
    /\ parsed_frames (events (for_messages eventSink latched frames)) = frames.
Proof.
  induction frames as [|text frames IH]; intros msgs latched Hdec.
  - destruct msgs; [|discriminate]. split; reflexivity.
  - destruct msgs as [|msg msgs]; [discriminate|].
    cbn [map] in Hdec. injection Hdec as Hmsg Hrest.
    cbn [for_messages]. rewrite (parse_message_decoded _ _ Hmsg).
    destruct (dispatch_spec eventSink latched msg) as [Hout Hpar].
    destruct (IH msgs (latch latched msg) Hrest) as [IHout IHpar].
    destruct (bind_returned (dispatch eventSink latched msg)
                (fun latched' => for_messages eventSink latched' frames) _ Hout)
      as [Hev Ho].
    rewrite bind_pair_returned. unfold events, outcome in *. cbn [fst snd].
    rewrite Hev, Ho. split; [exact IHout|].
    cbn [app parsed_frames]. rewrite parsed_frames_app, Hpar, IHpar. reflexivity.
Qed.

Lemma for_messages_cons_decoded (eventSink : LogEventSink)
    (latched : option Response) (text : string) (frames : list string)
    (msg : Response) :
  JSON_parse text = Some msg ->
  outcome (for_messages eventSink latched (text :: frames))
  = outcome (for_messages eventSink (latch latched msg) frames)
  /\ events (for_messages eventSink latched (text :: frames))
     = (JSONParse text :: events (dispatch eventSink latched msg)
        ++ events (for_messages eventSink (latch latched msg) frames))%list.
Proof.
  intros Hmsg. cbn [for_messages]. rewrite (parse_message_decoded _ _ Hmsg).
  destruct (dispatch_spec eventSink latched msg) as [Hout _].
  destruct (bind_returned (dispatch eventSink latched msg)
              (fun latched' => for_messages eventSink latched' frames) _ Hout)
    as [Hev Ho].
  rewrite bind_pair_returned. unfold events, outcome in *. cbn [fst snd].
  rewrite Hev, Ho. split; reflexivity.
Qed.

Lemma for_messages_cons_refused (eventSink : LogEventSink)
    (latched : option Response) (text : string) (frames : list string) :
  JSON_parse text = None ->
  for_messages eventSink latched (text :: frames)
  = ([JSONParse text], Thrown ("Agent message " ++ text ++ " was not valid JSON")).
Proof.
  intros Hbad. cbn [for_messages]. rewrite (parse_message_refused _ Hbad).
  reflexivity.
Qed.

(** The framing loop never leaves the typed world. *)
Lemma for_messages_typed (eventSink : LogEventSink) (frames : list string) :
  forall latched, outcome (for_messages eventSink latched frames) <> IllTyped.
Proof.
  induction frames as [|text frames IH]; intros latched; [discriminate|].
  destruct (JSON_parse text) as [msg|] eqn:Hparse.
  - destruct (for_messages_cons_decoded eventSink latched text frames msg Hparse)
      as [-> _]. apply IH.
  - rewrite (for_messages_cons_refused _ _ _ _ Hparse). discriminate.
Qed.

Lemma latch_fallback_only (latched : option Response) (msg : Response) :
  fallback_only latched -> fallback_only (latch latched msg).
Proof.
  intros Hok log. destruct msg as [l| | | | | |]; cbn [latch]; try discriminate.
  destruct (level l) eqn:Hl; try apply Hok.
  intros [= <-]. exact Hl.
Qed.

Lemma for_messages_fallback_only (eventSink : LogEventSink) (frames : list string) :
  forall latched result,
    fallback_only latched ->
    outcome (for_messages eventSink latched frames) = Returned result ->
    fallback_only result.
Proof.
  induction frames as [|text frames IH]; intros latched result Hok Hrun.
  - injection Hrun as <-. exact Hok.
  - destruct (JSON_parse text) as [msg|] eqn:Hparse.
    + destruct (for_messages_cons_decoded eventSink latched text frames msg Hparse)
        as [Hout _]. rewrite Hout in Hrun.
      apply (IH _ _ (latch_fallback_only latched msg Hok) Hrun).
    + rewrite (for_messages_cons_refused _ _ _ _ Hparse) in Hrun. discriminate.
Qed.

(** The loop seen from its outcome. *)
Lemma read_loop_returned (eventSink : LogEventSink) (reads : list (option string))
    (st : LoopState) :
  outcome (read_loop eventSink initial_state reads) = Returned st ->
  outcome (for_messages eventSink None (complete_frames (received reads)))
  = Returned (response st)
  /\ buffer st = partial_frame (received reads)
  /\ events (read_loop eventSink initial_state reads)
     = events (for_messages eventSink None (complete_frames (received reads))).
Proof.
  rewrite read_loop_initial.
  destruct (for_messages eventSink None (complete_frames (received reads)))
    as [t [latched|reason|]]; cbn; try discriminate.
  intros [= <-]. cbn. rewrite app_nil_r. repeat split; reflexivity.
Qed.

Lemma read_loop_of_frames (eventSink : LogEventSink) (reads : list (option string)) :
  events (read_loop eventSink initial_state reads)
  = events (for_messages eventSink None (complete_frames (received reads)))
  /\ (forall latched,
        outcome (for_messages eventSink None (complete_frames (received reads)))
        = Returned latched ->
        outcome (read_loop eventSink initial_state reads)
        = Returned {| buffer := partial_frame (received reads); response := latched |})
  /\ (forall reason,
        outcome (for_messages eventSink None (complete_frames (received reads)))
        = Thrown reason ->
        outcome (read_loop eventSink initial_state reads) = Thrown reason).
Proof.
  rewrite read_loop_initial.
  destruct (for_messages eventSink None (complete_frames (received reads)))
    as [t [latched|reason|]]; cbn; rewrite ?app_nil_r;
    repeat split; intros; congruence.
Qed.

Lemma read_loop_typed (eventSink : LogEventSink) (reads : list (option string)) :
  outcome (read_loop eventSink initial_state reads) <> IllTyped.
Proof.
  rewrite read_loop_initial.
  pose proof (for_messages_typed eventSink (complete_frames (received reads)) None)
    as Htyped.
  destruct (for_messages eventSink None (complete_frames (received reads)))
    as [t [latched|reason|]]; cbn in *; congruence.
Qed.

Lemma resolve_silent (run : AgentRun) (latched : option Response) :
  events (resolve run latched) = [].
Proof.
  unfold resolve. destruct (exit_code run =? 0)%Z; [|reflexivity].
  destruct latched as [[]|]; reflexivity.
Qed.

(** [sendRequest] when the loop is left normally, and when it throws. *)
Lemma sendRequest_resolved (run : AgentRun) (request : Request)
    (eventSink : LogEventSink) (st : LoopState) :
  outcome (read_loop eventSink initial_state (stdout_reads run)) = Returned st ->
  outcome (sendRequest run request eventSink) = outcome (resolve run (response st))
  /\ events (sendRequest run request eventSink)
     = (session_prologue request
        ++ events (read_loop eventSink initial_state (stdout_reads run))
        ++ [Console c_groupEnd []])%list.
Proof.
  intros Hloop. unfold sendRequest. rewrite !bind_tell.
  destruct (bind_returned (read_loop eventSink initial_state (stdout_reads run))
              (fun st => tell (Console c_groupEnd []) ;;; resolve run (response st))
              st Hloop) as [Hev Hout].
  unfold events, outcome in *. cbn [fst snd]. rewrite Hev, Hout, bind_tell.
  pose proof (resolve_silent run (response st)) as Hsilent.
  unfold events, outcome in *. cbn [fst snd]. rewrite Hsilent.
  split; reflexivity.
Qed.

Lemma sendRequest_aborted (run : AgentRun) (request : Request)
    (eventSink : LogEventSink) (reason : string) :
  outcome (read_loop eventSink initial_state (stdout_reads run)) = Thrown reason ->
  outcome (sendRequest run request eventSink) = Thrown reason
  /\ events (sendRequest run request eventSink)
     = (session_prologue request
        ++ events (read_loop eventSink initial_state (stdout_reads run)))%list.
Proof.
  intros Hloop. unfold sendRequest. rewrite !bind_tell.
  destruct (bind_thrown (read_loop eventSink initial_state (stdout_reads run))
              (fun st => tell (Console c_groupEnd []) ;;; resolve run (response st))
              reason Hloop) as [Hev Hout].
  unfold events, outcome in *. cbn [fst snd]. rewrite Hev, Hout.
  split; reflexivity.
Qed.

End SessionFacts.

Section SessionClaims.
Context `{Ext : Externals}.

Lemma latch_logs_then_terminal (logs : list LogMsg) (terminal : Response)
    (latched : option Response) :
  is_LogMsg terminal = false ->
  fold_left latch (map R_LogMsg logs ++ [terminal])%list latched = Some terminal.
Proof.
  intros Hterm. rewrite fold_left_app. cbn [fold_left].
  destruct terminal; [discriminate | reflexivity ..].
Qed.

(** C2. When the complete frames read by the loop decode to any number of
    log messages followed by one message that is not a [LogMsg], the loop
    ends normally and the latched response is that last message, whatever
    the levels of the logs before it (an [Error] log latched on the way is
    overwritten). *)
Theorem terminal_overrides_latched (eventSink : LogEventSink)
    (reads : list (option string)) (logs : list LogMsg) (terminal : Response) :
  map JSON_parse (complete_frames (received reads))
  = map Some (map R_LogMsg logs ++ [terminal])%list ->
  is_LogMsg terminal = false ->
  exists st,
    outcome (read_loop eventSink initial_state reads) = Returned st
    /\ response st = Some terminal.
Proof.
  intros Hdec Hterm.
  destruct (for_messages_decoded eventSink _ _ None Hdec) as [Hout _].
  rewrite (latch_logs_then_terminal logs terminal None Hterm) in Hout.
  destruct (read_loop_of_frames eventSink reads) as (_ & Hret & _).
  eexists. split; [apply Hret; exact Hout | reflexivity].
Qed.

(** C3. When the loop is left normally and the process exited with code 0,
    [sendRequest] resolves by the latched value: a latched terminal message
    is returned; a latched log message, which is then an [Error] one, makes
    it throw an error whose text is that log's message between backquotes;
    with nothing latched it throws "Received error response from agent". *)
Theorem exit_zero_resolves_by_latched (run : AgentRun) (request : Request)
    (eventSink : LogEventSink) (st : LoopState) :
  outcome (read_loop eventSink initial_state (stdout_reads run)) = Returned st ->
  exit_code run = 0%Z ->
  (forall terminal,
      response st = Some terminal -> is_LogMsg terminal = false ->
      outcome (sendRequest run request eventSink) = Returned terminal)
  /\ (forall log,
        response st = Some (R_LogMsg log) ->
        level log = Error
        /\ outcome (sendRequest run request eventSink)
           = Thrown ("`" ++ message log ++ "`"))
  /\ (response st = None ->
      outcome (sendRequest run request eventSink)
      = Thrown "Received error response from agent").
Proof.
  intros Hloop Hexit.
  destruct (sendRequest_resolved run request eventSink st Hloop) as [-> _].
  unfold resolve. rewrite Hexit. cbn [Z.eqb].
  split; [|split].
  - intros terminal -> Hterm. destruct terminal; [discriminate | reflexivity ..].
  - intros log Hlog. split; [|rewrite Hlog; reflexivity].
    destruct (read_loop_returned eventSink (stdout_reads run) st Hloop)
      as (Hframes & _ & _).
    apply (for_messages_fallback_only eventSink
             (complete_frames (received (stdout_reads run))) None (response st));
      [intros ? [=] | exact Hframes | exact Hlog].
  - intros ->. reflexivity.
Qed.

(** C4. When the process exited with a code other than 0, [sendRequest]
    never returns a response; and when the loop was left normally, whatever
    was latched, the error text is "Failed to invoke agent: is the
    executable corrupt?" followed by the whole decoded standard error. *)
Theorem nonzero_exit_always_fails (run : AgentRun) (request : Request)
    (eventSink : LogEventSink) :
  exit_code run <> 0%Z ->
  (exists reason, outcome (sendRequest run request eventSink) = Thrown reason)
  /\ (forall st,
        outcome (read_loop eventSink initial_state (stdout_reads run)) = Returned st ->
        outcome (sendRequest run request eventSink)
        = Thrown ("Failed to invoke agent: is the executable corrupt?"
                  ++ String.concat "" (stderr_chunks run))).
Proof.
  intros Hexit.
  assert (Hfail : forall st,
             outcome (read_loop eventSink initial_state (stdout_reads run)) = Returned st ->
             outcome (sendRequest run request eventSink)
             = Thrown ("Failed to invoke agent: is the executable corrupt?"
                       ++ String.concat "" (stderr_chunks run))).
  { intros st Hloop.
    destruct (sendRequest_resolved run request eventSink st Hloop) as [-> _].
    unfold resolve. apply Z.eqb_neq in Hexit. rewrite Hexit. reflexivity. }
  split; [|exact Hfail].
  destruct (outcome (read_loop eventSink initial_state (stdout_reads run)))
    as [st|reason|] eqn:Hloop.
  - eexists. apply (Hfail st). reflexivity.
  - exists reason. apply (sendRequest_aborted run request eventSink reason Hloop).
  - exfalso. exact (read_loop_typed eventSink (stdout_reads run) Hloop).
Qed.

Lemma for_messages_stops_at_refused (eventSink : LogEventSink)
    (before : list string) (bad : string) (after : list string) :
  forall latched,
    Forall (fun text => JSON_parse text <> None) before ->
    JSON_parse bad = None ->
    outcome (for_messages eventSink latched (before ++ bad :: after))
    = Thrown ("Agent message " ++ bad ++ " was not valid JSON")
    /\ parsed_frames (events (for_messages eventSink latched (before ++ bad :: after)))
       = (before ++ [bad])%list
    /\ exists earlier,
         events (for_messages eventSink latched (before ++ bad :: after))
         = (earlier ++ [JSONParse bad])%list.
Proof.
  induction before as [|text before IH]; intros latched Hgood Hbad.
  - cbn [app]. rewrite (for_messages_cons_refused _ _ _ _ Hbad).
    repeat split. exists []. reflexivity.
  - inversion Hgood as [|? ? Htext Hrest]; subst.
    destruct (JSON_parse text) as [msg|] eqn:Hparse; [|congruence].
    cbn [app].
    destruct (for_messages_cons_decoded eventSink latched text
                (before ++ bad :: after) msg Hparse) as [-> ->].
    destruct (IH (latch latched msg) Hrest Hbad) as (Hout & Hpar & earlier & Hev).
    destruct (dispatch_spec eventSink latched msg) as [_ Hquiet].
    split; [exact Hout|]. split.
    + cbn [parsed_frames app]. rewrite parsed_frames_app, Hquiet, Hpar. reflexivity.
    + exists (JSONParse text :: events (dispatch eventSink latched msg) ++ earlier)%list.
      rewrite Hev. cbn [app]. rewrite app_assoc. reflexivity.
Qed.

(** C5. When a complete frame is refused by [JSON.parse], every complete
    frame before it having been decoded, [sendRequest] throws "Agent message
    <frame> was not valid JSON" with the frame's text verbatim, whatever the
    exit code; that frame is the last text handed to [JSON.parse] and the
    failed call is the last thing the session does: no later frame is
    looked at. *)
Theorem malformed_frame_aborts (run : AgentRun) (request : Request)
    (eventSink : LogEventSink) (before : list string) (bad : string)
    (after : list string) :
  complete_frames (received (stdout_reads run)) = (before ++ bad :: after)%list ->
  Forall (fun text => JSON_parse text <> None) before ->
  JSON_parse bad = None ->
  outcome (sendRequest run request eventSink)
  = Thrown ("Agent message " ++ bad ++ " was not valid JSON")
  /\ parsed_frames (events (sendRequest run request eventSink))
     = (before ++ [bad])%list
  /\ exists earlier,
       events (sendRequest run request eventSink) = (earlier ++ [JSONParse bad])%list.
Proof.
  intros Hframes Hgood Hbad.
  destruct (for_messages_stops_at_refused eventSink before bad after None Hgood Hbad)
    as (Hout & Hpar & earlier & Hev).
  rewrite <- Hframes in Hout, Hpar, Hev.
  destruct (read_loop_of_frames eventSink (stdout_reads run)) as (Hsame & _ & Hthrown).
  destruct (sendRequest_aborted run request eventSink _ (Hthrown _ Hout)) as [-> ->].
  rewrite Hsame. split; [reflexivity|]. split.
  - rewrite parsed_frames_app, Hpar. reflexivity.
  - exists (session_prologue request ++ earlier)%list.
    rewrite Hev, app_assoc. reflexivity.
Qed.

End SessionClaims.

Section SessionExamples.
Import Sample.

Lemma terminal_overrides_latched_witness :
  exists st,
    outcome (read_loop observer initial_state (stdout_reads recovered_run))
    = Returned st
    /\ response st = Some (R_ModStatus empty_status).
Proof.
  apply (terminal_overrides_latched observer (stdout_reads recovered_run)
           [info_msg; error_msg] (R_ModStatus empty_status)); reflexivity.
Defined.

Lemma exit_zero_resolves_by_latched_witness :
  outcome (sendRequest scenario_run (GetModStatus None) observer)
  = Returned (R_ModStatus empty_status)
  /\ outcome (sendRequest refused_run (GetModStatus None) observer) = Thrown "`boom`"
  /\ outcome (sendRequest mute_run (GetModStatus None) observer)
     = Thrown "Received error response from agent".
Proof.
  split; [|split].
  - destruct (exit_zero_resolves_by_latched scenario_run (GetModStatus None) observer
                {| buffer := ""; response := Some (R_ModStatus empty_status) |})
      as (Hterminal & _ & _); [reflexivity | reflexivity |].
    apply Hterminal; reflexivity.
  - destruct (exit_zero_resolves_by_latched refused_run (GetModStatus None) observer
                {| buffer := ""; response := Some (R_LogMsg error_msg) |})
      as (_ & Hlog & _); [reflexivity | reflexivity |].
    apply (Hlog error_msg). reflexivity.
  - destruct (exit_zero_resolves_by_latched mute_run (GetModStatus None) observer
                {| buffer := status_frame; response := None |})
      as (_ & _ & Hnone); [reflexivity | reflexivity |].
    apply Hnone. reflexivity.
Defined.

Lemma nonzero_exit_always_fails_witness :
  outcome (sendRequest crashed_run (GetModStatus None) silent)
  = Thrown "Failed to invoke agent: is the executable corrupt?cannot execute binary file".
Proof.
  destruct (nonzero_exit_always_fails crashed_run (GetModStatus None) silent)
    as [_ Htext].
  - discriminate.
  - apply (Htext {| buffer := ""; response := Some (R_ModStatus empty_status) |}).
    reflexivity.
Defined.

Lemma malformed_frame_aborts_witness :
  outcome (sendRequest garbage_run (GetModStatus None) silent)
  = Thrown "Agent message oops was not valid JSON"
  /\ parsed_frames (events (sendRequest garbage_run (GetModStatus None) silent))
     = [info_frame; "oops"].
Proof.
  destruct (malformed_frame_aborts garbage_run (GetModStatus None) silent
              [info_frame] "oops" [status_frame]) as (Hout & Hpar & _).
  - reflexivity.
  - repeat constructor. discriminate.
  - reflexivity.
  - split; [exact Hout | exact Hpar].
Defined.

End SessionExamples.

(** ** The event sink *)

Section SinkFacts.
Context `{Ext : Externals}.

Lemma silenced_bind {A B} (m : M A) (k : A -> M B) :
  silenced (bind m k) = bind (silenced m) (fun a => silenced (k a)).
Proof.
  destruct m as [t [a|reason|]]; try reflexivity.
  unfold silenced, events, outcome. cbn [bind fst snd].
  destruct (k a) as [t2 r]. cbn [fst snd].
  unfold without_sink. rewrite filter_app. reflexivity.
Qed.

Lemma logInfo_silenced (s : Sink) (msg : string) :
  silenced (logInfo (Some s) msg) = logInfo None msg.
Proof. reflexivity. Qed.

Lemma parse_message_silenced (text : string) :
  silenced (parse_message text) = parse_message text.
Proof. unfold parse_message. destruct (JSON_parse text); reflexivity. Qed.

Lemma dispatch_silenced (s : Sink) (latched : option Response) (msg : Response) :
  silenced (dispatch (Some s) latched msg) = dispatch None latched msg.
Proof.
  destruct msg as [log| | | | | |]; try reflexivity.
  unfold dispatch, logFromAgent. destruct (level log); reflexivity.
Qed.

Lemma for_messages_silenced (s : Sink) (frames : list string) :
  forall latched,
    silenced (for_messages (Some s) latched frames) = for_messages None latched frames.
Proof.
  induction frames as [|text frames IH]; intros latched; [reflexivity|].
  cbn [for_messages]. rewrite silenced_bind, parse_message_silenced.
  apply bind_ext. intros msg. rewrite silenced_bind, dispatch_silenced.
  apply bind_ext. intros latched'. apply IH.
Qed.

Lemma read_loop_silenced (s : Sink) (reads : list (option string)) :
  forall st, silenced (read_loop (Some s) st reads) = read_loop None st reads.
Proof.
  induction reads as [|[chunk|] reads IH]; intros st; [reflexivity| |apply IH].
  cbn [read_loop]. rewrite silenced_bind. unfold on_chunk.
  rewrite silenced_bind, for_messages_silenced, !bind_assoc.
  apply bind_ext. intros latched. rewrite !bind_ret_l. apply IH.
Qed.

Lemma resolve_silenced (run : AgentRun) (latched : option Response) :
  silenced (resolve run latched) = resolve run latched.
Proof.
  unfold resolve. destruct (exit_code run =? 0)%Z; [|reflexivity].
  destruct latched as [[]|]; reflexivity.
Qed.

Lemma sendRequest_silenced (run : AgentRun) (request : Request) (s : Sink) :
  silenced (sendRequest run request (Some s)) = sendRequest run request None.
Proof.
  unfold sendRequest. rewrite !silenced_bind.
  change (silenced (tell (Spawn AgentPath))) with (tell (Spawn AgentPath)).
  apply bind_ext. intros _.
  match goal with |- bind (silenced (tell ?e)) _ = _ =>
    change (silenced (tell e)) with (tell e) end.
  apply bind_ext. intros _.
  match goal with |- bind (silenced (tell ?e)) _ = _ =>
    change (silenced (tell e)) with (tell e) end.
  apply bind_ext. intros _. rewrite read_loop_silenced.
  apply bind_ext. intros st. rewrite silenced_bind, resolve_silenced. reflexivity.
Qed.

Lemma sink_calls_without_sink (t : list Event) : sink_calls (without_sink t) = [].
Proof.
  induction t as [|e t IH]; [reflexivity|].
  destruct e; cbn; exact IH.
Qed.

End SinkFacts.

(** ** [patchApp] *)

Section PatchClaims.
Context `{Ext : Externals}.

(** C10. When [patchApp] returns, the status it returns is built in place:
    the loader is 'Scotland2', the version is [downgradeToVersion] when it
    is not null and the version of [beforePatch] otherwise, the manifest is
    [manifestMod], all core mods count as installed, the supported versions
    are those of [beforePatch], no downgrade version is listed and the
    modloader counts as present.  Of the agent's answer only what it holds
    under [installed_mods] is taken: for a [Patched] answer, its installed
    mods. *)
Theorem patchApp_builds_status_locally (CORE_MOD_OVERRIDE_URL : option string)
    (run : AgentRun) (beforePatch : ModStatus) (downgradeToVersion : option string)
    (manifestMod : string) (remodding allow_no_core_mods : bool)
    (eventSink : LogEventSink) (result : ModStatusOf (option (list Mod))) :
  outcome (patchApp CORE_MOD_OVERRIDE_URL run beforePatch downgradeToVersion
             manifestMod remodding allow_no_core_mods eventSink)
  = Returned result ->
  exists (answer : Response) (v : string) (before : CoreModsInfo),
    outcome (sendRequest run
               (Patch downgradeToVersion manifestMod allow_no_core_mods
                      CORE_MOD_OVERRIDE_URL remodding) eventSink)
    = Returned answer
    /\ (forall d, downgradeToVersion = Some d -> v = d)
    /\ (downgradeToVersion = None ->
        exists info, app_info beforePatch = Some info /\ v = version info)
    /\ core_mods beforePatch = Some before
    /\ result
       = {| app_info := Some {| loader_installed := "Scotland2";
                                version := v;
                                manifest_xml := manifestMod |};
            core_mods := Some {| all_core_mods_installed := true;
                                 supported_versions := supported_versions before;
                                 downgrade_versions := [] |};
            modloader_present := true;
            installed_mods := prop_installed_mods (properties answer) |}
    /\ (forall patched,
          answer = R_Patched patched ->
          installed_mods result = Some (patched_installed_mods patched)).
Proof.
  unfold patchApp. rewrite bind_tell. unfold outcome at 1. cbn [snd].
  destruct (sendRequest run _ eventSink) as [t [answer|reason|]] eqn:Hsend;
    [|discriminate ..].
  rewrite bind_pair_returned. unfold outcome. cbn [snd].
  destruct (prop_did_remove_dlc (properties answer)),
    downgradeToVersion as [d|], (app_info beforePatch) as [info|],
    (core_mods beforePatch) as [before|];
    cbn; try discriminate; intros [= <-];
    exists answer; eexists; exists before;
    (split; [reflexivity|]);
    (split; [first [intros ? [= <-]; reflexivity | discriminate]|]);
    (split; [first [discriminate | intros _; eexists; split; reflexivity]|]);
    (split; [reflexivity|]); (split; [reflexivity|]);
    intros patched ->; reflexivity.
Qed.

End PatchClaims.

Section PatchExample.
Import Sample.

Lemma patchApp_builds_status_locally_witness :
  outcome (patchApp None patch_run before_patch None "<manifest/>" false false observer)
  = Returned built_after_patch
  /\ exists answer,
       outcome (sendRequest patch_run (Patch None "<manifest/>" false None false) observer)
       = Returned answer
       /\ installed_mods built_after_patch = prop_installed_mods (properties answer).
Proof.
  split; [reflexivity|].
  destruct (patchApp_builds_status_locally None patch_run before_patch None
              "<manifest/>" false false observer built_after_patch)
    as (answer & v & before & Hsend & _ & _ & _ & Hbuilt & _).
  - reflexivity.
  - exists answer. split; [exact Hsend|]. rewrite Hbuilt. reflexivity.
Defined.

(** An agent that answers the patch with a status: [patchApp] returns all
    the same, with the mods of that status. *)
Example patchApp_on_another_answer :
  outcome (patchApp None wrong_answer_run before_patch (Some "1.35.0") "<manifest/>"
             false false silent)
  = Returned {| app_info := Some {| loader_installed := "Scotland2";
                                    version := "1.35.0";
                                    manifest_xml := "<manifest/>" |};
                core_mods := Some {| all_core_mods_installed := true;
                                     supported_versions := ["1.37.0"; "1.35.0"];
                                     downgrade_versions := [] |};
                modloader_present := true;
                installed_mods := Some (installed_mods empty_status) |}.
Proof. reflexivity. Qed.

End PatchExample.

(** ** The download loop *)

Section DownloadFacts.
Context `{Ext : Externals}.

Lemma remote_actions_app (t1 t2 : list Event) :
  remote_actions (t1 ++ t2) = (remote_actions t1 ++ remote_actions t2)%list.
Proof. apply filter_app. Qed.

Lemma remote_actions_cons (e : Event) (t : list Event) :
  remote_actions (e :: t)
  = ((if is_remote e then [e] else []) ++ remote_actions t)%list.
Proof. unfold remote_actions. cbn [filter]. destruct (is_remote e); reflexivity. Qed.

Lemma attempts_remote_actions (t : list Event) :
  attempts (remote_actions t) = attempts t.
Proof.
  unfold attempts, remote_actions. induction t as [|e t IH]; [reflexivity|].
  destruct e; cbn in *; try exact IH. rewrite IH. reflexivity.
Qed.

Lemma logInfo_spec (eventSink : LogEventSink) (msg : string) :
  outcome (logInfo eventSink msg) = Returned tt
  /\ remote_actions (events (logInfo eventSink msg)) = [].
Proof. destruct eventSink; split; reflexivity. Qed.

Lemma onprogress_spec (eventSink : LogEventSink) (ticks : list ProgressEvent) :
  forall lastReadTime,
    outcome (onprogress eventSink lastReadTime ticks) = Returned tt
    /\ remote_actions (events (onprogress eventSink lastReadTime ticks)) = [].
Proof.
  induction ticks as [|event ticks IH]; intros lastReadTime; [split; reflexivity|].
  cbn [onprogress]. destruct (negb (lengthComputable event)); [apply IH|].
  destruct (timeNow event - lastReadTime >? PROGRESS_UPDATE_INTERVAL)%Z; [|apply IH].
  destruct (logInfo_spec eventSink
              ("Download " ++ percent_text (loaded event) (total event) ++ "% complete"))
    as [Hout Hquiet].
  destruct (bind_returned _ (fun _ => onprogress eventSink (timeNow event) ticks) tt Hout)
    as [-> ->].
  destruct (IH (timeNow event)) as [IHout IHquiet].
  rewrite remote_actions_app, Hquiet, IHquiet. split; [exact IHout | reflexivity].
Qed.

Lemma xhr_promise_spec (eventSink : LogEventSink) (x : XhrRun) :
  outcome (xhr_promise eventSink x) = Returned (xhr_settles (finish x))
  /\ remote_actions (events (xhr_promise eventSink x)) = [XhrSend "GET" "mbf-agent"].
Proof.
  unfold xhr_promise. rewrite bind_tell.
  destruct (onprogress_spec eventSink (progress x) (startTime x)) as [Hout Hquiet].
  destruct (bind_returned _ (fun _ => ret (xhr_settles (finish x))) tt Hout)
    as [Hev Ho].
  unfold events, outcome in *. cbn [fst snd]. rewrite Hev, Ho.
  split; [reflexivity|].
  rewrite remote_actions_cons, remote_actions_app, Hquiet. reflexivity.
Qed.

Lemma after_failure_spec (eventSink : LogEventSink) (e : Z) (attempt : nat) :
  outcome (after_failure eventSink e attempt) = Returned (attempt + 1)
  /\ remote_actions (events (after_failure eventSink e attempt)) = [].
Proof.
  unfold after_failure.
  destruct (attempt + 1 <=? MAX_ATTEMPTS)%nat, eventSink; split; reflexivity.
Qed.

(** The loop, one iteration unfolded, as the source writes it. *)
Lemma downloadAgent_loop_step (eventSink : LogEventSink) (network : nat -> XhrRun)
    (ok : bool) (attempt sent : nat) :
  downloadAgent_loop eventSink network ok attempt sent =
  (settled <- xhr_promise eventSink (network sent) ;;
   match settled with
   | inl response =>
       logInfo eventSink "Download complete, getting byte array from response" ;;;
       ret response
   | inr e =>
       attempt' <- after_failure eventSink e attempt ;;
       if negb ok && (attempt' <=? MAX_ATTEMPTS)%nat
       then downloadAgent_loop eventSink network ok attempt' (S sent)
       else throw fetch_failed_message
   end).
Proof.
  rewrite downloadAgent_loop_unfold_eq. unfold downloadAgent_loop_unfold.
  destruct (xhr_promise eventSink (network sent)) as [t [[response|e]|reason|]];
    simp downloadAgent_loop; try reflexivity.
  destruct (after_failure_spec eventSink e attempt) as [Haf _].
  destruct (after_failure eventSink e attempt) as [taf raf] eqn:Hrun.
  unfold outcome in Haf. cbn [snd] in Haf. subst raf.
  destruct (inspect (negb ok && (attempt + 1 <=? MAX_ATTEMPTS)%nat)) as [[|] Hagain];
    simp downloadAgent_loop;
    rewrite ?Hrun, !bind_pair_returned, ?Hrun, ?bind_pair_returned, Hagain.
  - rewrite <- downloadAgent_loop_equation_1. reflexivity.
  - reflexivity.
Qed.

(** One iteration: the request succeeded. *)
Lemma download_step_done (eventSink : LogEventSink) (network : nat -> XhrRun)
    (attempt sent : nat) (body : list Byte.byte) :
  xhr_settles (finish (network sent)) = inl body ->
  outcome (downloadAgent_loop eventSink network false attempt sent) = Returned body
  /\ remote_actions (events (downloadAgent_loop eventSink network false attempt sent))
     = [XhrSend "GET" "mbf-agent"].
Proof.
  intros Hok. rewrite downloadAgent_loop_step.
  destruct (xhr_promise_spec eventSink (network sent)) as [Hout Hsend].
  rewrite Hok in Hout.
  match goal with |- context [bind _ ?k] =>
    destruct (bind_returned (xhr_promise eventSink (network sent)) k _ Hout)
      as [-> ->] end.
  rewrite remote_actions_app, Hsend.
  destruct eventSink; split; reflexivity.
Qed.

(** One iteration: the request failed. *)
Lemma download_step_failed (eventSink : LogEventSink) (network : nat -> XhrRun)
    (attempt sent : nat) (e : Z) :
  xhr_settles (finish (network sent)) = inr e ->
  let loop := downloadAgent_loop eventSink network false attempt sent in
  let next := downloadAgent_loop eventSink network false (attempt + 1) (S sent) in
  if (attempt + 1 <=? MAX_ATTEMPTS)%nat
  then outcome loop = outcome next
       /\ remote_actions (events loop)
          = XhrSend "GET" "mbf-agent" :: remote_actions (events next)
  else outcome loop = Thrown fetch_failed_message
       /\ remote_actions (events loop) = [XhrSend "GET" "mbf-agent"].
Proof.
  intros Hfail loop next. subst loop. rewrite downloadAgent_loop_step.
  destruct (xhr_promise_spec eventSink (network sent)) as [Hout Hsend].
  rewrite Hfail in Hout.
  match goal with |- context [bind _ ?k] =>
    destruct (bind_returned (xhr_promise eventSink (network sent)) k _ Hout)
      as [-> ->] end.
  destruct (after_failure_spec eventSink e attempt) as [Haf Hquiet].
  match goal with |- context [bind (after_failure _ _ _) ?k] =>
    destruct (bind_returned (after_failure eventSink e attempt) k _ Haf)
      as [-> ->] end.
  rewrite !remote_actions_app, Hsend, Hquiet. cbn [negb andb app].
  destruct (attempt + 1 <=? MAX_ATTEMPTS)%nat; split; reflexivity.
Qed.

End DownloadFacts.

Section DownloadClaims.
Context `{Ext : Externals}.

Local Abbreviation send := (XhrSend "GET" "mbf-agent").

(** [downloadAgent] by the way the first three requests end. *)
Lemma downloadAgent_cases (eventSink : LogEventSink) (network : nat -> XhrRun) :
  let run := downloadAgent eventSink network in
  match xhr_settles (finish (network 0)) with
  | inl body => outcome run = Returned body /\ remote_actions (events run) = [send]
  | inr _ =>
      match xhr_settles (finish (network 1)) with
      | inl body =>
          outcome run = Returned body /\ remote_actions (events run) = [send; send]
      | inr _ =>
          match xhr_settles (finish (network 2)) with
          | inl body =>
              outcome run = Returned body
              /\ remote_actions (events run) = [send; send; send]
          | inr _ =>
              outcome run = Thrown fetch_failed_message
              /\ remote_actions (events run) = [send; send; send]
          end
      end
  end.
Proof.
  intros run. subst run. unfold downloadAgent.
  destruct (xhr_settles (finish (network 0))) as [body|e0] eqn:H0;
    [exact (download_step_done eventSink network 1 0 body H0)|].
  destruct (download_step_failed eventSink network 1 0 e0 H0) as [-> ->].
  destruct (xhr_settles (finish (network 1))) as [body|e1] eqn:H1;
    [destruct (download_step_done eventSink network (1 + 1) 1 body H1) as [-> ->];
     split; reflexivity|].
  destruct (download_step_failed eventSink network (1 + 1) 1 e1 H1) as [-> ->].
  destruct (xhr_settles (finish (network 2))) as [body|e2] eqn:H2;
    [destruct (download_step_done eventSink network (1 + 1 + 1) 2 body H2) as [-> ->];
     split; reflexivity|].
  destruct (download_step_failed eventSink network (1 + 1 + 1) 2 e2 H2) as [-> ->].
  split; reflexivity.
Qed.

(** C7. [downloadAgent] sends at most 3 requests.  When the first two fail
    and the third succeeds, it has sent exactly 3 and returns the body of
    the third; when every request fails, it has sent exactly 3 and throws
    the error that asks about the internet connection. *)
Theorem downloadAgent_three_attempts (eventSink : LogEventSink)
    (network : nat -> XhrRun) :
  attempts (events (downloadAgent eventSink network)) <= 3
  /\ (forall body,
        xhr_fails (network 0) -> xhr_fails (network 1) ->
        xhr_settles (finish (network 2)) = inl body ->
        outcome (downloadAgent eventSink network) = Returned body
        /\ attempts (events (downloadAgent eventSink network)) = 3)
  /\ ((forall n, xhr_fails (network n)) ->
      outcome (downloadAgent eventSink network) = Thrown fetch_failed_message
      /\ attempts (events (downloadAgent eventSink network)) = 3
      /\ JsString.includes fetch_failed_message "lose internet connection" = true).
Proof.
  pose proof (downloadAgent_cases eventSink network) as Hcases. cbn zeta in Hcases.
  rewrite <- (attempts_remote_actions (events (downloadAgent eventSink network))).
  split; [|split].
  - destruct (xhr_settles (finish (network 0)));
      [|destruct (xhr_settles (finish (network 1)));
        [|destruct (xhr_settles (finish (network 2)))]];
      destruct Hcases as [_ ->]; cbn; lia.
  - intros body [e0 H0] [e1 H1] H2. rewrite H0, H1, H2 in Hcases.
    destruct Hcases as [-> ->]. split; reflexivity.
  - intros Hdead.
    destruct (Hdead 0) as [e0 H0], (Hdead 1) as [e1 H1], (Hdead 2) as [e2 H2].
    rewrite H0, H1, H2 in Hcases. destruct Hcases as [-> ->].
    repeat split; reflexivity.
Qed.

End DownloadClaims.

Section DownloadExample.
Import Sample.

Lemma downloadAgent_three_attempts_witness :
  (outcome (downloadAgent observer flaky_network) = Returned payload
   /\ attempts (events (downloadAgent observer flaky_network)) = 3)
  /\ outcome (downloadAgent observer dead_network) = Thrown fetch_failed_message.
Proof.
  split.
  - apply (downloadAgent_three_attempts observer flaky_network).
    + exists 0%Z. reflexivity.
    + exists 503%Z. reflexivity.
    + reflexivity.
  - apply (downloadAgent_three_attempts observer dead_network).
    intros n. exists 0%Z. reflexivity.
Defined.

End DownloadExample.

(** ** The upload *)

Section UploadClaims.
Context `{Ext : Externals}.

Lemma race_timeout_late (delay : Z) (timer_first : bool) (reason : string)
    (write : WriteRun) :
  (forall ms how, write = SettlesAt ms how -> (delay < ms)%Z) ->
  race_timeout delay timer_first reason write = throw reason.
Proof.
  intros Hlate. destruct write as [ms how|]; [|reflexivity].
  specialize (Hlate ms how eq_refl). unfold race_timeout.
  apply Z.ltb_lt in Hlate. rewrite Hlate. reflexivity.
Qed.

Lemma race_timeout_in_time (delay ms : Z) (timer_first : bool) (reason : string) :
  (ms < delay)%Z ->
  race_timeout delay timer_first reason (SettlesAt ms Fulfilled) = ret tt.
Proof.
  intros Hearly. unfold race_timeout.
  replace (delay <? ms)%Z with false by (symmetry; apply Z.ltb_ge; lia).
  replace (delay =? ms)%Z with false by (symmetry; apply Z.eqb_neq; lia).
  reflexivity.
Qed.

(** [saveAgent] once the download has returned: its outcome is that of the
    race. *)
Lemma saveAgent_after_download (env : Environment) (eventSink : LogEventSink)
    (agent : list Byte.byte) :
  outcome (downloadAgent eventSink (xhr_runs env)) = Returned agent ->
  outcome (saveAgent env eventSink)
  = outcome (race_timeout (AGENT_UPLOAD_TIMEOUT * 1000) (timer_first_on_tie env)
               upload_timeout_message (write_run env))
  /\ In (SyncWrite AgentPath agent) (events (saveAgent env eventSink)).
Proof.
  intros Hdown. unfold saveAgent.
  match goal with |- context [bind (downloadAgent _ _) ?k] =>
    destruct (bind_returned (downloadAgent eventSink (xhr_runs env)) k agent Hdown)
      as [-> ->] end.
  destruct (race_timeout (AGENT_UPLOAD_TIMEOUT * 1000) (timer_first_on_tie env)
              upload_timeout_message (write_run env)) as [t r].
  split.
  - destruct eventSink; reflexivity.
  - apply in_or_app. right. destruct eventSink; cbn; tauto.
Qed.

Lemma outcome_after_tell {B} (e : Event) (k : M B) :
  outcome (tell e ;;; k) = outcome k.
Proof. rewrite bind_tell. reflexivity. Qed.

Lemma outcome_after_logInfo {B} (eventSink : LogEventSink) (msg : string) (k : M B) :
  outcome (logInfo eventSink msg ;;; k) = outcome k.
Proof.
  destruct (logInfo_spec eventSink msg) as [Hout _].
  apply (bind_returned (logInfo eventSink msg) (fun _ => k) tt Hout).
Qed.

Lemma overwriteAgent_outcome (env : Environment) (eventSink : LogEventSink)
    (reason : string) :
  outcome (saveAgent env eventSink) = Thrown reason ->
  outcome (overwriteAgent env eventSink) = Thrown reason.
Proof.
  intros Hsave. unfold overwriteAgent. rewrite !outcome_after_tell.
  change (outcome (finally ?body ?cleanup)) with (outcome body).
  rewrite outcome_after_logInfo, outcome_after_tell, outcome_after_logInfo.
  apply (bind_thrown (saveAgent env eventSink)). exact Hsave.
Qed.

(** C8. Once the agent is downloaded: when the write to the device has not
    settled 30 seconds (30000 ms) after the race was started, [saveAgent]
    throws the error that starts "Did not finish pushing agent" and calls
    the condition a bug, and so does [overwriteAgent]: nothing is returned;
    when the write is fulfilled before that, [saveAgent] returns. *)
Theorem upload_timeout_is_reported (env : Environment) (eventSink : LogEventSink)
    (agent : list Byte.byte) :
  outcome (downloadAgent eventSink (xhr_runs env)) = Returned agent ->
  ((forall ms how, write_run env = SettlesAt ms how -> (30000 < ms)%Z) ->
   outcome (saveAgent env eventSink) = Thrown upload_timeout_message
   /\ outcome (overwriteAgent env eventSink) = Thrown upload_timeout_message)
  /\ (forall ms,
        write_run env = SettlesAt ms Fulfilled -> (ms < 30000)%Z ->
        outcome (saveAgent env eventSink) = Returned tt)
  /\ String.prefix "Did not finish pushing agent after 30 seconds."
       upload_timeout_message = true
  /\ JsString.includes upload_timeout_message "so this is a bug" = true.
Proof.
  intros Hdown.
  destruct (saveAgent_after_download env eventSink agent Hdown) as [Hsave _].
  split; [|split; [|split; reflexivity]].
  - intros Hlate.
    assert (Hthrown : outcome (saveAgent env eventSink) = Thrown upload_timeout_message).
    { rewrite Hsave, race_timeout_late; [reflexivity | exact Hlate]. }
    split; [exact Hthrown | exact (overwriteAgent_outcome env eventSink _ Hthrown)].
  - intros ms Hwrite Hearly.
    rewrite Hsave, Hwrite, race_timeout_in_time; [reflexivity | exact Hearly].
Qed.

End UploadClaims.

Section UploadExample.
Import Sample.

Lemma upload_timeout_is_reported_witness :
  outcome (saveAgent slow_device silent) = Thrown upload_timeout_message
  /\ outcome (saveAgent stale_device silent) = Returned tt.
Proof.
  split.
  - apply (upload_timeout_is_reported slow_device silent payload); [reflexivity|].
    intros ms how [= <- _]. reflexivity.
  - apply (upload_timeout_is_reported stale_device silent payload) with (ms := 120%Z);
      reflexivity.
Defined.

End UploadExample.

(** ** The hash check *)

Section TrimFacts.
Import JsString.

Lemma is_space_upper_char (c : ascii) : is_space (upper_char c) = is_space c.
Proof. destruct c as [[] [] [] [] [] [] [] []]; reflexivity. Qed.

Lemma upper_char_idempotent (c : ascii) : upper_char (upper_char c) = upper_char c.
Proof. destruct c as [[] [] [] [] [] [] [] []]; reflexivity. Qed.

Lemma toUpperCase_idempotent (s : string) :
  toUpperCase (toUpperCase s) = toUpperCase s.
Proof.
  induction s as [|c s IH]; [reflexivity|].
  cbn [toUpperCase]. rewrite upper_char_idempotent, IH. reflexivity.
Qed.

Lemma toUpperCase_trimStart (s : string) :
  toUpperCase (trimStart s) = trimStart (toUpperCase s).
Proof.
  induction s as [|c s IH]; [reflexivity|].
  cbn [toUpperCase trimStart]. rewrite is_space_upper_char.
  destruct (is_space c); [exact IH | reflexivity].
Qed.

Lemma toUpperCase_trimEnd (s : string) :
  toUpperCase (trimEnd s) = trimEnd (toUpperCase s).
Proof.
  induction s as [|c s IH]; [reflexivity|].
  cbn [toUpperCase trimEnd]. rewrite <- IH, is_space_upper_char.
  destruct (trimEnd s) as [|d kept]; cbn [toUpperCase]; [|reflexivity].
  destruct (is_space c); reflexivity.
Qed.

Lemma toUpperCase_trim (s : string) : toUpperCase (trim s) = trim (toUpperCase s).
Proof. unfold trim. rewrite toUpperCase_trimEnd, toUpperCase_trimStart. reflexivity. Qed.

Lemma trimStart_starts_clean (s : string) : starts_clean (trimStart s).
Proof.
  induction s as [|c s IH]; [exact I|].
  cbn [trimStart]. destruct (is_space c) eqn:Hc; [exact IH | exact Hc].
Qed.

Lemma trimStart_of_clean (s : string) : starts_clean s -> trimStart s = s.
Proof. destruct s as [|c s]; [reflexivity|]. cbn. intros ->. reflexivity. Qed.

Lemma trimEnd_starts_clean (s : string) : starts_clean s -> starts_clean (trimEnd s).
Proof.
  destruct s as [|c s]; [intros _; exact I|]. cbn [starts_clean trimEnd]. intros Hc.
  rewrite Hc. destruct (trimEnd s); exact Hc.
Qed.

Lemma trimEnd_idempotent (s : string) : trimEnd (trimEnd s) = trimEnd s.
Proof.
  induction s as [|c s IH]; [reflexivity|].
  cbn [trimEnd]. destruct (trimEnd s) as [|d kept] eqn:Hkept.
  - destruct (is_space c) eqn:Hc; [reflexivity|]. cbn [trimEnd]. rewrite Hc. reflexivity.
  - cbn [trimEnd]. cbn [trimEnd] in IH. rewrite IH. reflexivity.
Qed.

Lemma trim_idempotent (s : string) : trim (trim s) = trim s.
Proof.
  unfold trim.
  rewrite (trimStart_of_clean (trimEnd (trimStart s)))
    by apply trimEnd_starts_clean, trimStart_starts_clean.
  apply trimEnd_idempotent.
Qed.

(** The second normalisation of [prepareAgent] changes nothing. *)
Lemma normalise_twice (s : string) :
  toUpperCase (trim (toUpperCase (trim s))) = toUpperCase (trim s).
Proof.
  rewrite (toUpperCase_trim s), trim_idempotent, <- toUpperCase_trim.
  apply toUpperCase_idempotent.
Qed.

End TrimFacts.

Section HashCheckClaims.
Context `{Ext : Externals}.

Lemma prepareAgent_fast_path (env : Environment) (eventSink : LogEventSink) :
  AGENT_SHA1 = JsString.toUpperCase (JsString.trim (sha1sum_stdout env)) ->
  remote_actions (events (prepareAgent env eventSink)) = [SpawnAndWait sha1sum_command]
  /\ outcome (prepareAgent env eventSink) = Returned tt.
Proof.
  intros Hsame. unfold prepareAgent. rewrite normalise_twice, <- Hsame.
  rewrite String.eqb_refl. destruct eventSink; split; reflexivity.
Qed.

(** C6, amended. When the expected hash [AGENT_SHA1] is written in upper
    case and the remote hash (the trimmed output of the [sha1sum] command)
    equals it up to case, [prepareAgent] returns and the only action that
    reaches the device or the network is the [sha1sum] command: nothing is
    removed, fetched, written or made executable. *)
Theorem prepareAgent_up_to_date_is_idle (env : Environment)
    (eventSink : LogEventSink) :
  JsString.toUpperCase AGENT_SHA1 = AGENT_SHA1 ->
  same_ignoring_case (JsString.trim (sha1sum_stdout env)) AGENT_SHA1 ->
  remote_actions (events (prepareAgent env eventSink)) = [SpawnAndWait sha1sum_command]
  /\ outcome (prepareAgent env eventSink) = Returned tt.
Proof.
  intros Hupper Hsame. apply prepareAgent_fast_path.
  unfold same_ignoring_case in Hsame. rewrite Hsame. symmetry. exact Hupper.
Qed.

End HashCheckClaims.

Section HashCheckExamples.
Import Sample.

Lemma prepareAgent_up_to_date_is_idle_witness :
  remote_actions (events (prepareAgent up_to_date_device observer))
  = [SpawnAndWait sha1sum_command]
  /\ outcome (prepareAgent up_to_date_device observer) = Returned tt.
Proof.
  apply (prepareAgent_up_to_date_is_idle up_to_date_device observer); reflexivity.
Defined.

(** C6 as stated fails: with the expected hash in lower case, a device whose
    agent has that very hash is not recognised as up to date, and the agent
    is removed, fetched, written and made executable again. *)
Lemma idle_on_equal_hash_ignoring_case_fails :
  ~ (forall (P : Payloads) (E : Externals) (env : Environment)
            (eventSink : LogEventSink),
        same_ignoring_case (JsString.trim (sha1sum_stdout env)) AGENT_SHA1 ->
        remote_actions (events (prepareAgent env eventSink))
        = [SpawnAndWait sha1sum_command]).
Proof.
  intros Hclaim.
  specialize (Hclaim payloads lowercase_externals up_to_date_device silent eq_refl).
  vm_compute in Hclaim. discriminate Hclaim.
Qed.

End HashCheckExamples.

(** * Further properties of the session *)

Section SessionMoreFacts.
Context `{Ext : Externals}.

Lemma dispatch_quiet (eventSink : LogEventSink) (latched : option Response)
    (msg : Response) :
  remote_actions (events (dispatch eventSink latched msg)) = [].
Proof.
  destruct msg as [log| | | | | |]; try reflexivity.
  unfold dispatch. destruct (logFromAgent_spec log) as [method ->].
  destruct eventSink, (level log); reflexivity.
Qed.

Lemma for_messages_quiet (eventSink : LogEventSink) (frames : list string) :
  forall latched, remote_actions (events (for_messages eventSink latched frames)) = [].
Proof.
  induction frames as [|text frames IH]; intros latched; [reflexivity|].
  destruct (JSON_parse text) as [msg|] eqn:Hparse.
  - destruct (for_messages_cons_decoded eventSink latched text frames msg Hparse)
      as [_ ->].
    rewrite remote_actions_cons, remote_actions_app, dispatch_quiet, IH. reflexivity.
  - rewrite (for_messages_cons_refused _ _ _ _ Hparse). reflexivity.
Qed.

(** The events of [sendRequest] around those of its loop. *)
Lemma sendRequest_events (run : AgentRun) (request : Request)
    (eventSink : LogEventSink) :
  exists epilogue,
    events (sendRequest run request eventSink)
    = (session_prologue request
       ++ events (for_messages eventSink None
                    (complete_frames (received (stdout_reads run))))
       ++ epilogue)%list
    /\ (epilogue = [] \/ epilogue = [Console c_groupEnd []]).
Proof.
  destruct (read_loop_of_frames eventSink (stdout_reads run)) as (Hsame & _ & _).
  destruct (outcome (read_loop eventSink initial_state (stdout_reads run)))
    as [st|reason|] eqn:Hloop.
  - destruct (sendRequest_resolved run request eventSink st Hloop) as [_ ->].
    rewrite Hsame. eexists. split; [reflexivity | right; reflexivity].
  - destruct (sendRequest_aborted run request eventSink reason Hloop) as [_ ->].
    rewrite Hsame. exists []. rewrite app_nil_r. split; [reflexivity | left; reflexivity].
  - exfalso. exact (read_loop_typed eventSink (stdout_reads run) Hloop).
Qed.

Lemma for_messages_parsed_prefix (eventSink : LogEventSink) (frames : list string) :
  forall latched,
  exists rest,
    frames = (parsed_frames (events (for_messages eventSink latched frames)) ++ rest)%list.
Proof.
  induction frames as [|text frames IH]; intros latched; [exists []; reflexivity|].
  destruct (JSON_parse text) as [msg|] eqn:Hparse.
  - destruct (for_messages_cons_decoded eventSink latched text frames msg Hparse)
      as [_ ->].
    destruct (IH (latch latched msg)) as [rest Hrest]. exists rest.
    destruct (dispatch_spec eventSink latched msg) as [_ Hnone].
    cbn [parsed_frames]. rewrite parsed_frames_app, Hnone. cbn [app].
    rewrite <- Hrest. reflexivity.
  - rewrite (for_messages_cons_refused _ _ _ _ Hparse). exists frames. reflexivity.
Qed.

Lemma split_segments_no_newline (s : string) :
  Forall (fun seg => no_newline seg = true) (JsString.split JsString.newline s).
Proof.
  induction s as [|c s IH]; [repeat constructor|].
  cbn [JsString.split]. destruct (Ascii.eqb c JsString.newline) eqn:Hc.
  - constructor; [reflexivity | exact IH].
  - pose proof (split_nonempty JsString.newline s) as Hne.
    destruct (JsString.split JsString.newline s) as [|seg segs]; [congruence|].
    inversion IH as [|? ? Hseg Hsegs]; subst.
    constructor; [|exact Hsegs]. cbn [no_newline]. rewrite Hc, Hseg. reflexivity.
Qed.

Lemma split_no_newline (s : string) :
  no_newline s = true -> JsString.split JsString.newline s = [s].
Proof.
  induction s as [|c s IH]; [reflexivity|].
  cbn [no_newline JsString.split]. intros Hs. apply andb_true_iff in Hs.
  destruct Hs as [Hc Hs]. apply negb_true_iff in Hc. rewrite Hc, (IH Hs). reflexivity.
Qed.

Lemma no_newline_app (a b : string) :
  no_newline a = true -> no_newline b = true -> no_newline (a ++ b) = true.
Proof.
  intros Ha Hb. induction a as [|c a IH]; [exact Hb|].
  cbn [no_newline] in Ha. apply andb_true_iff in Ha. destruct Ha as [Hc Ha].
  change (String c a ++ b) with (String c (a ++ b)). cbn [no_newline].
  rewrite Hc, (IH Ha). reflexivity.
Qed.

Lemma partial_frame_no_newline (s : string) : no_newline (partial_frame s) = true.
Proof.
  unfold partial_frame. pose proof (split_segments_no_newline s) as Hall.
  pose proof (split_nonempty JsString.newline s) as Hne.
  induction (JsString.split JsString.newline s) as [|seg segs IH]; [congruence|].
  inversion Hall as [|? ? Hseg Hsegs]; subst.
  destruct segs as [|seg' segs]; [exact Hseg|].
  rewrite last_cons_nonempty by discriminate. apply IH; [exact Hsegs | discriminate].
Qed.

Lemma complete_frames_no_newline (s : string) :
  Forall (fun seg => no_newline seg = true) (complete_frames s).
Proof.
  unfold complete_frames. pose proof (split_segments_no_newline s) as Hall.
  rewrite (app_removelast_last "" (split_nonempty JsString.newline s)) in Hall.
  apply Forall_app in Hall. exact (proj1 Hall).
Qed.

Lemma received_app (reads more : list (option string)) :
  received (reads ++ more) = received reads ++ received more.
Proof.
  induction reads as [|[chunk|] reads IH]; [reflexivity| |exact IH].
  cbn [app received]. rewrite IH, string_app_assoc. reflexivity.
Qed.

Lemma fold_latch_fallback (logs : list LogMsg) (latched : option Response) :
  Forall (fun log => level log <> Error) logs ->
  fold_left latch (map R_LogMsg logs) latched = latched.
Proof.
  intros Hquiet. revert latched.
  induction Hquiet as [|log logs Hlog _ IH]; intros latched; [reflexivity|].
  cbn [map fold_left]. rewrite <- (IH latched) at 2. f_equal.
  unfold latch. destruct (level log); congruence.
Qed.

Lemma sink_calls_app (t1 t2 : list Event) :
  sink_calls (t1 ++ t2) = (sink_calls t1 ++ sink_calls t2)%list.
Proof.
  induction t1 as [|e t1 IH]; [reflexivity|].
  destruct e; cbn [app sink_calls]; rewrite IH; reflexivity.
Qed.

Lemma dispatch_sink_calls (s : Sink) (latched : option Response) (msg : Response) :
  sink_calls (events (dispatch (Some s) latched msg)) = logs_of [msg].
Proof.
  destruct msg as [log| | | | | |]; try reflexivity.
  unfold dispatch. destruct (logFromAgent_spec log) as [method ->].
  destruct (level log); reflexivity.
Qed.

Lemma for_messages_sink_calls (s : Sink) (frames : list string) :
  forall latched,
    sink_calls (events (for_messages (Some s) latched frames))
    = logs_of (decoded_prefix frames).
Proof.
  induction frames as [|text frames IH]; intros latched; [reflexivity|].
  cbn [decoded_prefix]. destruct (JSON_parse text) as [msg|] eqn:Hparse.
  - destruct (for_messages_cons_decoded (Some s) latched text frames msg Hparse)
      as [_ ->].
    cbn [sink_calls]. rewrite sink_calls_app, dispatch_sink_calls, IH.
    destruct msg; reflexivity.
  - rewrite (for_messages_cons_refused _ _ _ _ Hparse). reflexivity.
Qed.

End SessionMoreFacts.

(** ** The framing loop, frame by frame *)

Section FramingClaim.
Context `{Ext : Externals}.

Lemma for_messages_handed (eventSink : LogEventSink) (frames : list string) :
  forall latched,
    parsed_frames (events (for_messages eventSink latched frames))
    = handed_to_parser frames.
Proof.
  induction frames as [|text frames IH]; intros latched; [reflexivity|].
  cbn [handed_to_parser]. destruct (JSON_parse text) as [msg|] eqn:Hparse.
  - destruct (for_messages_cons_decoded eventSink latched text frames msg Hparse)
      as [_ ->].
    destruct (dispatch_spec eventSink latched msg) as [_ Hnone].
    cbn [parsed_frames]. rewrite parsed_frames_app, Hnone, IH. reflexivity.
  - rewrite (for_messages_cons_refused _ _ _ _ Hparse). reflexivity.
Qed.

Lemma for_messages_outcome (eventSink : LogEventSink) (frames : list string) :
  forall latched,
    outcome (for_messages eventSink latched frames)
    = match first_refused frames with
      | None => Returned (fold_left latch (decoded_prefix frames) latched)
      | Some bad => Thrown ("Agent message " ++ bad ++ " was not valid JSON")
      end.
Proof.
  induction frames as [|text frames IH]; intros latched; [reflexivity|].
  cbn [first_refused decoded_prefix]. destruct (JSON_parse text) as [msg|] eqn:Hparse.
  - destruct (for_messages_cons_decoded eventSink latched text frames msg Hparse)
      as [-> _].
    apply IH.
  - rewrite (for_messages_cons_refused _ _ _ _ Hparse). reflexivity.
Qed.

Lemma handed_to_parser_all (frames : list string) :
  first_refused frames = None -> handed_to_parser frames = frames.
Proof.
  induction frames as [|text frames IH]; [reflexivity|].
  cbn [first_refused handed_to_parser].
  destruct (JSON_parse text); [|discriminate].
  intros Hrest. rewrite (IH Hrest). reflexivity.
Qed.

Lemma sendRequest_parsed (run : AgentRun) (request : Request)
    (eventSink : LogEventSink) :
  parsed_frames (events (sendRequest run request eventSink))
  = handed_to_parser (complete_frames (received (stdout_reads run))).
Proof.
  destruct (sendRequest_events run request eventSink) as (epilogue & -> & Hepi).
  rewrite !parsed_frames_app, for_messages_handed.
  destruct Hepi as [-> | ->]; cbn; apply app_nil_r.
Qed.

(** C1. Two sequences of reads that deliver the same text, however it is
    cut into chunks (empty chunks, ended reads and cuts inside a JSON value
    included), drive the framing loop of [sendRequest] to the same events,
    the same buffer and latched response, or the same thrown error, and so
    [sendRequest] itself does not depend on the cut.  What the loop does is
    fixed by the text alone: the text is cut at its newlines into segments
    that hold no newline and that, joined by newlines, are the text again;
    every segment but the last is handed to [JSON.parse], once and in order,
    up to the first one refused; the loop throws on that one, and otherwise
    ends with the messages decoded from all of them dispatched in order and
    the last segment as its buffer. *)
Theorem framing_independent_of_chunking (eventSink : LogEventSink)
    (reads1 reads2 : list (option string)) :
  received reads1 = received reads2 ->
  let text := received reads1 in
  let loop := read_loop eventSink initial_state reads1 in
  loop = read_loop eventSink initial_state reads2
  /\ loop =
     (latched <- for_messages eventSink None (complete_frames text) ;;
      ret {| buffer := partial_frame text; response := latched |})
  /\ String.concat (String JsString.newline "")
       (complete_frames text ++ [partial_frame text]) = text
  /\ (forall code stderr request,
        sendRequest {| stdout_reads := reads1; exit_code := code;
                       stderr_chunks := stderr |} request eventSink
        = sendRequest {| stdout_reads := reads2; exit_code := code;
                         stderr_chunks := stderr |} request eventSink)
  /\ Forall (fun segment => no_newline segment = true)
       (complete_frames text ++ [partial_frame text])
  /\ parsed_frames (events loop) = handed_to_parser (complete_frames text)
  /\ (first_refused (complete_frames text) = None ->
      parsed_frames (events loop) = complete_frames text)
  /\ outcome loop
     = match first_refused (complete_frames text) with
       | None =>
           Returned {| buffer := partial_frame text;
                       response := fold_left latch
                                     (decoded_prefix (complete_frames text)) None |}
       | Some bad => Thrown ("Agent message " ++ bad ++ " was not valid JSON")
       end.
Proof.
  intros Hsame text loop.
  assert (Hloop : loop = read_loop eventSink initial_state reads2)
    by (subst loop; rewrite !read_loop_initial, Hsame; reflexivity).
  split; [exact Hloop|]. split; [apply read_loop_initial|].
  split; [apply frames_rebuild_text|]. split.
  { intros code stderr request. unfold sendRequest. cbn [stdout_reads].
    fold loop. rewrite Hloop. reflexivity. }
  split.
  { apply Forall_app. split; [apply complete_frames_no_newline|].
    constructor; [apply partial_frame_no_newline | constructor]. }
  destruct (read_loop_of_frames eventSink reads1) as (Hevents & Hret & Hthrown).
  fold text in Hevents, Hret, Hthrown. fold loop in Hevents, Hret, Hthrown.
  assert (Hparsed : parsed_frames (events loop) = handed_to_parser (complete_frames text))
    by (rewrite Hevents; apply for_messages_handed).
  split; [exact Hparsed|]. split.
  { intros Hnone. rewrite Hparsed. apply handed_to_parser_all. exact Hnone. }
  pose proof (for_messages_outcome eventSink (complete_frames text) None) as Hout.
  destruct (first_refused (complete_frames text)) as [bad|].
  - apply Hthrown. exact Hout.
  - apply Hret. exact Hout.
Qed.

(** X2. The texts handed to [JSON.parse] during [sendRequest] are exactly
    the complete lines of the text received, in order and once each, up to
    and including the first one refused: all of them when none is refused.
    None of them holds a newline. *)
Theorem parsed_frames_are_leading_lines (run : AgentRun) (request : Request)
    (eventSink : LogEventSink) :
  let lines := complete_frames (received (stdout_reads run)) in
  parsed_frames (events (sendRequest run request eventSink)) = handed_to_parser lines
  /\ (first_refused lines = None ->
      parsed_frames (events (sendRequest run request eventSink)) = lines)
  /\ (forall bad,
        first_refused lines = Some bad ->
        exists before after,
          lines = (before ++ bad :: after)%list
          /\ parsed_frames (events (sendRequest run request eventSink))
             = (before ++ [bad])%list)
  /\ Forall (fun text => no_newline text = true) lines.
Proof.
  intros lines. pose proof (sendRequest_parsed run request eventSink) as Hparsed.
  fold lines in Hparsed. rewrite Hparsed.
  split; [reflexivity|]. split; [apply handed_to_parser_all|].
  split; [|apply complete_frames_no_newline].
  clear Hparsed. induction lines as [|text rest IH]; intros bad; [discriminate|].
  cbn [first_refused handed_to_parser]. destruct (JSON_parse text) as [msg|].
  - intros Hbad. destruct (IH bad Hbad) as (before & after & -> & ->).
    exists (text :: before), after. split; reflexivity.
  - intros [= <-]. exists [], rest. split; reflexivity.
Qed.

End FramingClaim.

Section FramingExample.
Import Sample.

Lemma framing_independent_of_chunking_witness :
  received (stdout_reads scenario_run) = received (stdout_reads scenario_run_split)
  /\ read_loop observer initial_state (stdout_reads scenario_run)
     = read_loop observer initial_state (stdout_reads scenario_run_split)
  /\ parsed_frames (events (read_loop observer initial_state (stdout_reads scenario_run)))
     = [info_frame; status_frame].
Proof.
  split; [reflexivity|].
  destruct (framing_independent_of_chunking observer
              (stdout_reads scenario_run) (stdout_reads scenario_run_split) eq_refl)
    as (Hloop & _ & _ & _ & _ & Hparsed & _).
  split; [exact Hloop | exact Hparsed].
Defined.

Lemma parsed_frames_are_leading_lines_witness :
  parsed_frames (events (sendRequest garbage_run (GetModStatus None) observer))
  = [info_frame; "oops"]
  /\ parsed_frames (events (sendRequest recovered_run (GetModStatus None) observer))
     = complete_frames (received (stdout_reads recovered_run)).
Proof.
  split.
  - exact (proj1 (parsed_frames_are_leading_lines garbage_run (GetModStatus None)
                    observer)).
  - apply (parsed_frames_are_leading_lines recovered_run (GetModStatus None) observer).
    reflexivity.
Defined.

End FramingExample.

Section SessionMore.
Context `{Ext : Externals}.

Lemma sendRequest_remote (run : AgentRun) (request : Request)
    (eventSink : LogEventSink) :
  remote_actions (events (sendRequest run request eventSink))
  = [Spawn AgentPath;
     StdinWrite (JSON_stringify request ++ String JsString.newline "")].
Proof.
  destruct (sendRequest_events run request eventSink) as (epilogue & -> & Hepi).
  rewrite !remote_actions_app, for_messages_quiet.
  destruct Hepi as [-> | ->]; reflexivity.
Qed.

(** X1. Whatever the agent answers and however the session ends,
    [sendRequest] reaches the device twice and in this order: it spawns the
    agent once, then writes the serialised request followed by one newline
    once. *)
Theorem sendRequest_spawns_and_writes_once (run : AgentRun) (request : Request)
    (eventSink : LogEventSink) :
  remote_actions (events (sendRequest run request eventSink))
  = [Spawn AgentPath;
     StdinWrite (JSON_stringify request ++ String JsString.newline "")].
Proof. exact (sendRequest_remote run request eventSink). Qed.

(** X3. What the agent writes after its last newline is never looked at: a
    last read without a newline changes neither the events nor the outcome
    of [sendRequest].  So an agent that exits with code 0 having written no
    newline at all gets "Received error response from agent", whatever it
    wrote. *)
Theorem unterminated_tail_is_ignored (reads : list (option string)) (tail : string)
    (code : Z) (stderr : list string) (request : Request)
    (eventSink : LogEventSink) :
  no_newline tail = true ->
  sendRequest {| stdout_reads := reads ++ [Some tail]; exit_code := code;
                 stderr_chunks := stderr |} request eventSink
  = sendRequest {| stdout_reads := reads; exit_code := code;
                   stderr_chunks := stderr |} request eventSink
  /\ (reads = [] -> code = 0%Z ->
      outcome (sendRequest {| stdout_reads := [Some tail]; exit_code := code;
                              stderr_chunks := stderr |} request eventSink)
      = Thrown "Received error response from agent").
Proof.
  intros Htail.
  assert (Hsame :
            sendRequest {| stdout_reads := reads ++ [Some tail]; exit_code := code;
                           stderr_chunks := stderr |} request eventSink
            = sendRequest {| stdout_reads := reads; exit_code := code;
                             stderr_chunks := stderr |} request eventSink).
  { unfold sendRequest. cbn [stdout_reads]. do 3 (apply bind_ext; intros _).
    rewrite !read_loop_initial, received_app. cbn [received].
    rewrite string_app_empty_r, complete_frames_app.
    unfold complete_frames at 2.
    rewrite split_no_newline
      by (apply no_newline_app; [apply partial_frame_no_newline | exact Htail]).
    cbn [removelast]. rewrite app_nil_r, !bind_assoc.
    apply bind_ext. intros latched. rewrite !bind_ret_l. reflexivity. }
  split; [exact Hsame|].
  intros -> ->. cbn [app] in Hsame. rewrite Hsame. reflexivity.
Qed.

(** X4. The latched value is not written once: an [Error] log that comes
    last replaces a terminal message received before it.  When the frames
    decode to any messages followed by an [Error] log and the agent exits
    with code 0, [sendRequest] throws that log's message between
    backquotes. *)
Theorem error_log_after_terminal_wins (run : AgentRun) (request : Request)
    (eventSink : LogEventSink) (front : list Response) (log : LogMsg) :
  map JSON_parse (complete_frames (received (stdout_reads run)))
  = map Some (front ++ [R_LogMsg log])%list ->
  level log = Error ->
  exit_code run = 0%Z ->
  outcome (sendRequest run request eventSink) = Thrown ("`" ++ message log ++ "`").
Proof.
  intros Hdec Hlevel Hexit.
  destruct (for_messages_decoded eventSink _ _ None Hdec) as [Hout _].
  rewrite fold_left_app in Hout. cbn [fold_left latch] in Hout.
  rewrite Hlevel in Hout.
  destruct (read_loop_of_frames eventSink (stdout_reads run)) as (_ & Hret & _).
  destruct (sendRequest_resolved run request eventSink _ (Hret _ Hout)) as [-> _].
  unfold resolve. rewrite Hexit. reflexivity.
Qed.

(** X5. Logs that are not [Error] ones leave the latched value alone, also
    after the terminal message: when the frames decode to any messages, a
    terminal message and then logs of other levels, and the agent exits with
    code 0, [sendRequest] returns the terminal message. *)
Theorem logs_after_terminal_keep_it (run : AgentRun) (request : Request)
    (eventSink : LogEventSink) (front : list Response) (terminal : Response)
    (logs : list LogMsg) :
  map JSON_parse (complete_frames (received (stdout_reads run)))
  = map Some (front ++ terminal :: map R_LogMsg logs)%list ->
  is_LogMsg terminal = false ->
  Forall (fun log => level log <> Error) logs ->
  exit_code run = 0%Z ->
  outcome (sendRequest run request eventSink) = Returned terminal.
Proof.
  intros Hdec Hterm Hquiet Hexit.
  destruct (for_messages_decoded eventSink _ _ None Hdec) as [Hout _].
  rewrite fold_left_app in Hout. cbn [fold_left] in Hout.
  rewrite (fold_latch_fallback logs _ Hquiet) in Hout.
  destruct (read_loop_of_frames eventSink (stdout_reads run)) as (_ & Hret & _).
  destruct (sendRequest_resolved run request eventSink _ (Hret _ Hout)) as [-> _].
  unfold resolve. rewrite Hexit. cbn [response Z.eqb].
  destruct terminal; [discriminate | reflexivity ..].
Qed.

(** X6. The observer is handed, in order and once each, exactly the log
    messages decoded before the session ends or a frame is refused. *)
Theorem observer_hears_every_decoded_log (run : AgentRun) (request : Request)
    (s : Sink) :
  sink_calls (events (sendRequest run request (Some s)))
  = logs_of (decoded_prefix (complete_frames (received (stdout_reads run)))).
Proof.
  destruct (sendRequest_events run request (Some s)) as (epilogue & -> & Hepi).
  rewrite !sink_calls_app, for_messages_sink_calls.
  destruct Hepi as [-> | ->]; cbn; apply app_nil_r.
Qed.

End SessionMore.

Section SessionMoreExamples.
Import Sample.

Lemma unterminated_tail_is_ignored_witness :
  sendRequest {| stdout_reads := stdout_reads scenario_run ++ [Some patched_frame];
                 exit_code := 0; stderr_chunks := [] |} (GetModStatus None) observer
  = sendRequest {| stdout_reads := stdout_reads scenario_run;
                   exit_code := 0; stderr_chunks := [] |} (GetModStatus None) observer.
Proof.
  apply (unterminated_tail_is_ignored (stdout_reads scenario_run) patched_frame 0 []
           (GetModStatus None) observer).
  reflexivity.
Defined.

Lemma error_log_after_terminal_wins_witness :
  outcome (sendRequest late_error_run (GetModStatus None) observer) = Thrown "`boom`".
Proof.
  apply (error_log_after_terminal_wins late_error_run (GetModStatus None) observer
           [R_ModStatus empty_status] error_msg); reflexivity.
Defined.

Lemma logs_after_terminal_keep_it_witness :
  outcome (sendRequest chatty_run (GetModStatus None) observer)
  = Returned (R_ModStatus empty_status).
Proof.
  apply (logs_after_terminal_keep_it chatty_run (GetModStatus None) observer
           [] (R_ModStatus empty_status) [info_msg]);
    try reflexivity.
  repeat constructor. discriminate.
Defined.

End SessionMoreExamples.

(** * Further properties of the download *)

Section DownloadMore.
Context `{Ext : Externals}.

Lemma onprogress_log_step (lastReadTime : Z) (event : ProgressEvent)
    (ticks : list ProgressEvent) :
  progress_logs lastReadTime (event :: ticks)
  = if negb (lengthComputable event) then progress_logs lastReadTime ticks
    else if (timeNow event - lastReadTime >? PROGRESS_UPDATE_INTERVAL)%Z
         then S (progress_logs (timeNow event) ticks)
         else progress_logs lastReadTime ticks.
Proof.
  unfold progress_logs. cbn [onprogress].
  destruct (negb (lengthComputable event)); [reflexivity|].
  destruct (timeNow event - lastReadTime >? PROGRESS_UPDATE_INTERVAL)%Z; [|reflexivity].
  match goal with |- context [bind (logInfo None ?msg) ?k] =>
    destruct (bind_returned (logInfo None msg) k tt eq_refl) as [-> _] end.
  rewrite length_app. reflexivity.
Qed.

Lemma progress_logs_bound (bound : Z) (ticks : list ProgressEvent) :
  (forall tick, In tick ticks -> (timeNow tick <= bound)%Z) ->
  forall lastReadTime,
    progress_logs lastReadTime ticks = 0
    \/ (1000 * Z.of_nat (progress_logs lastReadTime ticks) < bound - lastReadTime)%Z.
Proof.
  induction ticks as [|event ticks IH]; intros Hbound lastReadTime; [left; reflexivity|].
  assert (Hrest : forall tick, In tick ticks -> (timeNow tick <= bound)%Z)
    by (intros tick Hin; apply Hbound; right; exact Hin).
  rewrite onprogress_log_step.
  destruct (negb (lengthComputable event)); [apply IH; exact Hrest|].
  destruct (timeNow event - lastReadTime >? PROGRESS_UPDATE_INTERVAL)%Z eqn:Hdue;
    [|apply IH; exact Hrest].
  right. apply Z.gtb_lt in Hdue. unfold PROGRESS_UPDATE_INTERVAL in Hdue.
  pose proof (Hbound event (or_introl eq_refl)) as Hevent.
  destruct (IH Hrest (timeNow event)) as [-> | Hlater]; lia.
Qed.

(** X7. Progress messages are throttled: when every progress event of a
    request is stamped no later than [bound], fewer than one message per
    1000 ms elapsed since the request was started is logged.  Progress events
    of unknown length are skipped altogether: they neither log nor move the
    clock of the throttle. *)
Theorem progress_is_throttled (eventSink : LogEventSink) (startTime bound : Z)
    (ticks : list ProgressEvent) :
  (forall tick, In tick ticks -> (timeNow tick <= bound)%Z) ->
  (1000 * Z.of_nat (progress_logs startTime ticks) <= Z.max 0 (bound - startTime))%Z
  /\ onprogress eventSink startTime ticks
     = onprogress eventSink startTime (filter lengthComputable ticks).
Proof.
  intros Hbound. split.
  - destruct (progress_logs_bound bound ticks Hbound startTime) as [-> | Hlt]; lia.
  - clear Hbound. revert startTime.
    induction ticks as [|event ticks IH]; intros startTime; [reflexivity|].
    cbn [onprogress filter]. destruct (lengthComputable event) eqn:Hknown;
      cbn [negb]; [|apply IH].
    cbn [onprogress]. rewrite Hknown. cbn [negb].
    destruct (timeNow event - startTime >? PROGRESS_UPDATE_INTERVAL)%Z; [|apply IH].
    apply bind_ext. intros _. apply IH.
Qed.

Lemma download_by_first_success (eventSink : LogEventSink) (network : nat -> XhrRun) :
  match first_success network 0 MAX_ATTEMPTS with
  | Some (k, body) =>
      outcome (downloadAgent eventSink network) = Returned body
      /\ remote_actions (events (downloadAgent eventSink network))
         = repeat fetch_request (S k)
  | None =>
      outcome (downloadAgent eventSink network) = Thrown fetch_failed_message
      /\ remote_actions (events (downloadAgent eventSink network))
         = repeat fetch_request MAX_ATTEMPTS
  end.
Proof.
  pose proof (downloadAgent_cases eventSink network) as Hcases. cbn zeta in Hcases.
  cbn [first_success MAX_ATTEMPTS].
  destruct (xhr_settles (finish (network 0))); [exact Hcases|].
  destruct (xhr_settles (finish (network 1))); [exact Hcases|].
  destruct (xhr_settles (finish (network 2))); exact Hcases.
Qed.

(** X8. [downloadAgent] returns the body of the first of its first three
    requests that succeeds, having sent no request after it and nothing else
    to the network or the device; when none of the three succeeds it throws
    the connectivity error after three requests.  A fourth request is never
    sent. *)
Theorem downloadAgent_returns_first_success (eventSink : LogEventSink)
    (network : nat -> XhrRun) :
  match first_success network 0 MAX_ATTEMPTS with
  | Some (k, body) =>
      outcome (downloadAgent eventSink network) = Returned body
      /\ remote_actions (events (downloadAgent eventSink network))
         = repeat fetch_request (S k)
  | None =>
      outcome (downloadAgent eventSink network) = Thrown fetch_failed_message
      /\ remote_actions (events (downloadAgent eventSink network))
         = repeat fetch_request MAX_ATTEMPTS
  end.
Proof. exact (download_by_first_success eventSink network). Qed.

End DownloadMore.

Section DownloadMoreExamples.
Import Sample.

Lemma progress_is_throttled_witness :
  (1000 * Z.of_nat (progress_logs 0 (progress (good_network 0))) <= 2600)%Z.
Proof.
  apply (progress_is_throttled silent 0 2600 (progress (good_network 0))).
  intros tick Hin. cbn in Hin.
  repeat (destruct Hin as [<- | Hin]; [cbn; lia|]). destruct Hin.
Defined.

End DownloadMoreExamples.

(** * Further properties of the provisioning *)

Section ProvisioningFacts.
Context `{Ext : Externals}.

Lemma race_timeout_silent (delay : Z) (timer_first : bool) (reason : string)
    (write : WriteRun) :
  events (race_timeout delay timer_first reason write) = [].
Proof.
  unfold race_timeout. destruct write as [ms [|why]|]; try reflexivity;
    destruct ((delay <? ms) || (delay =? ms) && timer_first)%Z; reflexivity.
Qed.

(** [saveAgent] by the outcome of its download. *)
Lemma saveAgent_shape (env : Environment) (eventSink : LogEventSink) :
  match outcome (downloadAgent eventSink (xhr_runs env)) with
  | Returned agent =>
      outcome (saveAgent env eventSink)
      = outcome (race_timeout (AGENT_UPLOAD_TIMEOUT * 1000) (timer_first_on_tie env)
                   upload_timeout_message (write_run env))
      /\ remote_actions (events (saveAgent env eventSink))
         = (remote_actions (events (downloadAgent eventSink (xhr_runs env)))
            ++ [SyncWrite AgentPath agent])%list
  | failed =>
      outcome (saveAgent env eventSink)
      = match failed with Thrown reason => Thrown reason | _ => IllTyped end
      /\ remote_actions (events (saveAgent env eventSink))
         = remote_actions (events (downloadAgent eventSink (xhr_runs env)))
  end.
Proof.
  unfold saveAgent.
  destruct (downloadAgent eventSink (xhr_runs env)) as [t [agent|reason|]];
    try (split; reflexivity).
  pose proof (race_timeout_silent (AGENT_UPLOAD_TIMEOUT * 1000)
                (timer_first_on_tie env) upload_timeout_message (write_run env))
    as Hsilent.
  destruct (race_timeout (AGENT_UPLOAD_TIMEOUT * 1000) (timer_first_on_tie env)
              upload_timeout_message (write_run env)) as [tr r].
  unfold events in Hsilent. cbn [fst] in Hsilent. subst tr.
  destruct eventSink; unfold remote_actions;
    cbn -[AgentPath String.append]; rewrite ?filter_app; split; reflexivity.
Qed.

(** [overwriteAgent] around [saveAgent]. *)
Lemma overwriteAgent_shape (env : Environment) (eventSink : LogEventSink) :
  outcome (overwriteAgent env eventSink) = outcome (saveAgent env eventSink)
  /\ remote_actions (events (overwriteAgent env eventSink))
     = (SyncOpen :: remove_agent
        :: remote_actions (events (saveAgent env eventSink))
        ++ match outcome (saveAgent env eventSink) with
           | Returned _ => [make_executable]
           | _ => []
           end
        ++ [SyncDispose])%list.
Proof.
  unfold overwriteAgent.
  destruct (saveAgent env eventSink) as [t [[]|reason|]];
    destruct eventSink; unfold remote_actions;
    cbn -[AgentPath String.append]; rewrite ?filter_app;
    cbn -[AgentPath String.append]; rewrite <- ?app_assoc; split; reflexivity.
Qed.

(** [prepareAgent] by its comparison. *)
Lemma prepareAgent_shape (env : Environment) (eventSink : LogEventSink) :
  if String.eqb AGENT_SHA1 (JsString.toUpperCase (JsString.trim (sha1sum_stdout env)))
  then outcome (prepareAgent env eventSink) = Returned tt
       /\ remote_actions (events (prepareAgent env eventSink)) = [hash_agent]
  else outcome (prepareAgent env eventSink) = outcome (overwriteAgent env eventSink)
       /\ remote_actions (events (prepareAgent env eventSink))
          = hash_agent :: remote_actions (events (overwriteAgent env eventSink)).
Proof.
  unfold prepareAgent. rewrite normalise_twice.
  destruct (String.eqb AGENT_SHA1
              (JsString.toUpperCase (JsString.trim (sha1sum_stdout env)))).
  - destruct eventSink; split; reflexivity.
  - destruct (overwriteAgent env eventSink) as [t r].
    destruct eventSink; split; reflexivity.
Qed.

End ProvisioningFacts.

Section ProvisioningMore.
Context `{Ext : Externals}.

Lemma overwriteAgent_after_download (env : Environment) (eventSink : LogEventSink)
    (k : nat) (body : list Byte.byte) :
  first_success (xhr_runs env) 0 MAX_ATTEMPTS = Some (k, body) ->
  let race := race_timeout (AGENT_UPLOAD_TIMEOUT * 1000) (timer_first_on_tie env)
                upload_timeout_message (write_run env) in
  outcome (overwriteAgent env eventSink) = outcome race
  /\ remote_actions (events (overwriteAgent env eventSink))
     = (SyncOpen :: remove_agent
        :: repeat fetch_request (S k) ++ [SyncWrite AgentPath body]
        ++ match outcome race with Returned _ => [make_executable] | _ => [] end
        ++ [SyncDispose])%list.
Proof.
  intros Hfirst race. subst race.
  pose proof (download_by_first_success eventSink (xhr_runs env)) as Hdown.
  rewrite Hfirst in Hdown. destruct Hdown as [Hbody Hsent].
  pose proof (saveAgent_shape env eventSink) as Hsave.
  rewrite Hbody, Hsent in Hsave. destruct Hsave as [Hout Hremote].
  destruct (overwriteAgent_shape env eventSink) as [-> ->].
  rewrite Hout, Hremote, <- app_assoc. split; reflexivity.
Qed.

Lemma overwriteAgent_download_failed (env : Environment) (eventSink : LogEventSink) :
  first_success (xhr_runs env) 0 MAX_ATTEMPTS = None ->
  outcome (overwriteAgent env eventSink) = Thrown fetch_failed_message
  /\ remote_actions (events (overwriteAgent env eventSink))
     = (SyncOpen :: remove_agent :: repeat fetch_request MAX_ATTEMPTS
        ++ [SyncDispose])%list.
Proof.
  intros Hfirst.
  pose proof (download_by_first_success eventSink (xhr_runs env)) as Hdown.
  rewrite Hfirst in Hdown. destruct Hdown as [Hbody Hsent].
  pose proof (saveAgent_shape env eventSink) as Hsave.
  rewrite Hbody, Hsent in Hsave. destruct Hsave as [Hout Hremote].
  destruct (overwriteAgent_shape env eventSink) as [-> ->].
  rewrite Hout, Hremote. split; reflexivity.
Qed.

Lemma prepareAgent_when_stale (env : Environment) (eventSink : LogEventSink) :
  AGENT_SHA1 <> JsString.toUpperCase (JsString.trim (sha1sum_stdout env)) ->
  outcome (prepareAgent env eventSink) = outcome (overwriteAgent env eventSink)
  /\ remote_actions (events (prepareAgent env eventSink))
     = hash_agent :: remote_actions (events (overwriteAgent env eventSink)).
Proof.
  intros Hstale. pose proof (prepareAgent_shape env eventSink) as Hshape.
  apply String.eqb_neq in Hstale. rewrite Hstale in Hshape. exact Hshape.
Qed.

(** X9. On a device whose agent is stale, when a request of the download
    succeeds and the write settles in time, [prepareAgent] returns after
    exactly these actions, in this order: the hash command, the opening of
    the sync connection, the removal of the old agent, the requests up to the
    first that succeeds, the write of its body to the agent's path, the
    [chmod], and the disposal of the connection. *)
Theorem fresh_install_order (env : Environment) (eventSink : LogEventSink)
    (k : nat) (body : list Byte.byte) :
  AGENT_SHA1 <> JsString.toUpperCase (JsString.trim (sha1sum_stdout env)) ->
  first_success (xhr_runs env) 0 MAX_ATTEMPTS = Some (k, body) ->
  write_in_time env ->
  outcome (prepareAgent env eventSink) = Returned tt
  /\ remote_actions (events (prepareAgent env eventSink))
     = ([hash_agent; SyncOpen; remove_agent] ++ repeat fetch_request (S k)
        ++ [SyncWrite AgentPath body; make_executable; SyncDispose])%list.
Proof.
  intros Hstale Hfirst (ms & Hwrite & Hearly).
  destruct (prepareAgent_when_stale env eventSink Hstale) as [-> ->].
  destruct (overwriteAgent_after_download env eventSink k body Hfirst) as [-> ->].
  rewrite Hwrite, race_timeout_in_time by exact Hearly. split; reflexivity.
Qed.

(** X10. The old agent is removed before the new one is fetched: on a
    stale device, when none of the three requests succeeds, [prepareAgent]
    throws the connectivity error having removed the agent and written
    nothing; the sync connection is disposed of. *)
Theorem failed_download_leaves_no_agent (env : Environment)
    (eventSink : LogEventSink) :
  AGENT_SHA1 <> JsString.toUpperCase (JsString.trim (sha1sum_stdout env)) ->
  first_success (xhr_runs env) 0 MAX_ATTEMPTS = None ->
  outcome (prepareAgent env eventSink) = Thrown fetch_failed_message
  /\ remote_actions (events (prepareAgent env eventSink))
     = [hash_agent; SyncOpen; remove_agent; fetch_request; fetch_request;
        fetch_request; SyncDispose].
Proof.
  intros Hstale Hfirst.
  destruct (prepareAgent_when_stale env eventSink Hstale) as [-> ->].
  destruct (overwriteAgent_download_failed env eventSink Hfirst) as [-> ->].
  split; reflexivity.
Qed.

(** X11. On a stale device whose write does not settle within 30000 ms,
    or is rejected before, [prepareAgent] throws (the timeout error, or the
    reason of the rejection) and the agent is never made executable: the
    last actions are the write and the disposal of the connection. *)
Theorem failed_upload_skips_chmod (env : Environment) (eventSink : LogEventSink)
    (k : nat) (body : list Byte.byte) :
  AGENT_SHA1 <> JsString.toUpperCase (JsString.trim (sha1sum_stdout env)) ->
  first_success (xhr_runs env) 0 MAX_ATTEMPTS = Some (k, body) ->
  remote_actions (events (prepareAgent env eventSink))
  = ([hash_agent; SyncOpen; remove_agent] ++ repeat fetch_request (S k)
     ++ [SyncWrite AgentPath body]
     ++ match outcome (prepareAgent env eventSink) with
        | Returned _ => [make_executable]
        | _ => []
        end ++ [SyncDispose])%list
  /\ (write_too_late env ->
      outcome (prepareAgent env eventSink) = Thrown upload_timeout_message)
  /\ (forall ms why,
        write_run env = SettlesAt ms (Rejected why) -> (ms < 30000)%Z ->
        outcome (prepareAgent env eventSink) = Thrown why).
Proof.
  intros Hstale Hfirst.
  destruct (prepareAgent_when_stale env eventSink Hstale) as [-> ->].
  destruct (overwriteAgent_after_download env eventSink k body Hfirst) as [-> ->].
  split; [reflexivity|]. split.
  - intros Hlate. rewrite race_timeout_late; [reflexivity | exact Hlate].
  - intros ms why -> Hearly. unfold race_timeout.
    replace (AGENT_UPLOAD_TIMEOUT * 1000 <? ms)%Z with false
      by (symmetry; apply Z.ltb_ge; unfold AGENT_UPLOAD_TIMEOUT; lia).
    replace (AGENT_UPLOAD_TIMEOUT * 1000 =? ms)%Z with false
      by (symmetry; apply Z.eqb_neq; unfold AGENT_UPLOAD_TIMEOUT; lia).
    reflexivity.
Qed.

(** X12. [prepareAgent] leaves the device alone exactly when the expected
    hash is, character for character, the output of the hash command trimmed
    and put in upper case; in every other case (an absent agent, whose hash
    command prints nothing, included) it goes on to open the sync connection
    and remove the agent. *)
Theorem fast_path_exactly_on_equal_hash (env : Environment)
    (eventSink : LogEventSink) :
  (remote_actions (events (prepareAgent env eventSink)) = [hash_agent]
   <-> AGENT_SHA1 = JsString.toUpperCase (JsString.trim (sha1sum_stdout env)))
  /\ (AGENT_SHA1 <> JsString.toUpperCase (JsString.trim (sha1sum_stdout env)) ->
      exists later,
        remote_actions (events (prepareAgent env eventSink))
        = hash_agent :: SyncOpen :: remove_agent :: later).
Proof.
  assert (Hslow :
            AGENT_SHA1 <> JsString.toUpperCase (JsString.trim (sha1sum_stdout env)) ->
            exists later,
              remote_actions (events (prepareAgent env eventSink))
              = hash_agent :: SyncOpen :: remove_agent :: later).
  { intros Hstale.
    destruct (prepareAgent_when_stale env eventSink Hstale) as [_ ->].
    destruct (overwriteAgent_shape env eventSink) as [_ ->].
    eexists. reflexivity. }
  split; [|exact Hslow]. split.
  - intros Hidle.
    destruct (string_dec AGENT_SHA1
                (JsString.toUpperCase (JsString.trim (sha1sum_stdout env))))
      as [Hsame|Hstale]; [exact Hsame|].
    destruct (Hslow Hstale) as [later Hlater]. rewrite Hlater in Hidle. discriminate.
  - intros Hsame. apply prepareAgent_fast_path. exact Hsame.
Qed.

Lemma repeat_fetch_keeps_sync (n : nat) :
  Forall (fun e => e <> SyncOpen /\ e <> SyncDispose) (repeat fetch_request n).
Proof.
  induction n as [|n IH]; [constructor|].
  constructor; [split; discriminate | exact IH].
Qed.

(** X13. However [overwriteAgent] ends, it opens the sync connection once,
    first, and disposes of it once, last. *)
Theorem sync_is_always_disposed (env : Environment) (eventSink : LogEventSink) :
  exists between,
    remote_actions (events (overwriteAgent env eventSink))
    = (SyncOpen :: between ++ [SyncDispose])%list
    /\ Forall (fun e => e <> SyncOpen /\ e <> SyncDispose) between.
Proof.
  destruct (first_success (xhr_runs env) 0 MAX_ATTEMPTS) as [[k body]|] eqn:Hfirst.
  - destruct (overwriteAgent_after_download env eventSink k body Hfirst) as [_ ->].
    exists (remove_agent :: repeat fetch_request (S k) ++ [SyncWrite AgentPath body]
            ++ match outcome (race_timeout (AGENT_UPLOAD_TIMEOUT * 1000)
                                (timer_first_on_tie env) upload_timeout_message
                                (write_run env)) with
               | Returned _ => [make_executable]
               | _ => []
               end)%list.
    split.
    + rewrite <- !app_comm_cons, <- !app_assoc. reflexivity.
    + constructor; [split; discriminate|].
      apply Forall_app. split; [apply repeat_fetch_keeps_sync|].
      constructor; [split; discriminate|].
      destruct (outcome _); repeat constructor; discriminate.
  - destruct (overwriteAgent_download_failed env eventSink Hfirst) as [_ ->].
    exists (remove_agent :: repeat fetch_request MAX_ATTEMPTS). split; [reflexivity|].
    constructor; [split; discriminate | apply repeat_fetch_keeps_sync].
Qed.

End ProvisioningMore.

Section ProvisioningMoreExamples.
Import Sample.

Lemma fresh_install_order_witness :
  outcome (prepareAgent stale_device observer) = Returned tt.
Proof.
  apply (fresh_install_order stale_device observer 0 payload);
    [discriminate | reflexivity |].
  exists 120%Z. split; reflexivity.
Defined.

Lemma failed_download_leaves_no_agent_witness :
  outcome (prepareAgent offline_device observer) = Thrown fetch_failed_message.
Proof.
  apply (failed_download_leaves_no_agent offline_device observer);
    [discriminate | reflexivity].
Defined.

Lemma failed_upload_skips_chmod_witness :
  outcome (prepareAgent full_device observer) = Thrown "No space left on device"
  /\ outcome (prepareAgent slow_device observer) = Thrown upload_timeout_message.
Proof.
  split.
  - destruct (failed_upload_skips_chmod full_device observer 2 payload)
      as (_ & _ & Hrejected); [discriminate | reflexivity |].
    apply (Hrejected 40%Z); reflexivity.
  - destruct (failed_upload_skips_chmod slow_device observer 0 payload)
      as (_ & Hlate & _); [discriminate | reflexivity |].
    apply Hlate. intros ms how [= <- _]. reflexivity.
Defined.

End ProvisioningMoreExamples.

Section FastPathExample.
Import Sample.

Lemma fast_path_exactly_on_equal_hash_witness :
  exists later,
    remote_actions (events (prepareAgent offline_device silent))
    = hash_agent :: SyncOpen :: remove_agent :: later.
Proof.
  apply (fast_path_exactly_on_equal_hash offline_device silent). discriminate.
Defined.

End FastPathExample.

(** * The observer and the provisioning *)

Section ObserverMore.
Context `{Ext : Externals}.

Lemma silenced_tell_then {B} (e : Event) (k : M B) :
  is_sink_call e = false -> silenced (tell e ;;; k) = (tell e ;;; silenced k).
Proof.
  intros Hquiet. rewrite !bind_tell. unfold silenced, events, outcome, without_sink.
  cbn [fst snd filter]. rewrite Hquiet. reflexivity.
Qed.

Lemma silenced_logInfo_then {B} (s : Sink) (msg : string) (k : M B) :
  silenced (logInfo (Some s) msg ;;; k) = (logInfo None msg ;;; silenced k).
Proof. rewrite silenced_bind, logInfo_silenced. reflexivity. Qed.

Lemma silenced_pair {A} (t : list Event) (r : Result A) :
  silenced (t, r) = (without_sink t, r).
Proof. reflexivity. Qed.

Lemma silenced_finally {A} (body : M A) (cleanup : list Event) :
  silenced (finally body cleanup) = finally (silenced body) (without_sink cleanup).
Proof.
  destruct body as [t r]. unfold silenced, finally, events, outcome, without_sink.
  cbn [fst snd]. rewrite filter_app. reflexivity.
Qed.

Lemma onprogress_silenced (s : Sink) (ticks : list ProgressEvent) :
  forall lastReadTime,
    silenced (onprogress (Some s) lastReadTime ticks)
    = onprogress None lastReadTime ticks.
Proof.
  induction ticks as [|event ticks IH]; intros lastReadTime; [reflexivity|].
  cbn [onprogress]. destruct (negb (lengthComputable event)); [apply IH|].
  destruct (timeNow event - lastReadTime >? PROGRESS_UPDATE_INTERVAL)%Z; [|apply IH].
  rewrite silenced_bind, logInfo_silenced. apply bind_ext. intros _. apply IH.
Qed.

Lemma xhr_promise_silenced (s : Sink) (x : XhrRun) :
  silenced (xhr_promise (Some s) x) = xhr_promise None x.
Proof.
  unfold xhr_promise. rewrite silenced_bind.
  change (silenced (tell (XhrSend "GET" "mbf-agent")))
    with (tell (XhrSend "GET" "mbf-agent")).
  apply bind_ext. intros _. rewrite silenced_bind, onprogress_silenced. reflexivity.
Qed.

Lemma after_failure_silenced (s : Sink) (e : Z) (attempt : nat) :
  silenced (after_failure (Some s) e attempt) = after_failure None e attempt.
Proof.
  unfold after_failure. destruct (attempt + 1 <=? MAX_ATTEMPTS)%nat; reflexivity.
Qed.

Lemma downloadAgent_loop_silenced (s : Sink) (network : nat -> XhrRun) :
  forall fuel attempt sent,
    S MAX_ATTEMPTS - attempt <= fuel ->
    silenced (downloadAgent_loop (Some s) network false attempt sent)
    = downloadAgent_loop None network false attempt sent.
Proof.
  induction fuel as [|fuel IH]; intros attempt sent Hfuel;
    rewrite (downloadAgent_loop_step (Some s)), (downloadAgent_loop_step None);
    rewrite silenced_bind, xhr_promise_silenced;
    apply bind_ext; intros [body|e]; try reflexivity;
    rewrite silenced_bind, after_failure_silenced;
    destruct (after_failure_spec None e attempt) as [Hnext _];
    destruct (after_failure None e attempt) as [t r];
    unfold outcome in Hnext; cbn [snd] in Hnext; subst r;
    rewrite !bind_pair_returned; cbn [negb andb];
    destruct (attempt + 1 <=? MAX_ATTEMPTS)%nat eqn:Hagain; try reflexivity;
    apply Nat.leb_le in Hagain; unfold MAX_ATTEMPTS in *.
  - lia.
  - rewrite IH by lia. reflexivity.
Qed.

Lemma downloadAgent_silenced (s : Sink) (network : nat -> XhrRun) :
  silenced (downloadAgent (Some s) network) = downloadAgent None network.
Proof.
  unfold downloadAgent. apply (downloadAgent_loop_silenced s network (S MAX_ATTEMPTS)).
  lia.
Qed.

Lemma race_timeout_silenced (delay : Z) (timer_first : bool) (reason : string)
    (write : WriteRun) :
  silenced (race_timeout delay timer_first reason write)
  = race_timeout delay timer_first reason write.
Proof.
  unfold race_timeout. destruct write as [ms [|why]|]; try reflexivity;
    destruct ((delay <? ms) || (delay =? ms) && timer_first)%Z; reflexivity.
Qed.

Lemma saveAgent_silenced (s : Sink) (env : Environment) :
  silenced (saveAgent env (Some s)) = saveAgent env None.
Proof.
  unfold saveAgent. rewrite silenced_bind, downloadAgent_silenced.
  apply bind_ext. intros agent.
  rewrite !silenced_logInfo_then, silenced_tell_then by reflexivity.
  rewrite race_timeout_silenced. reflexivity.
Qed.

Lemma overwriteAgent_silenced (s : Sink) (env : Environment) :
  silenced (overwriteAgent env (Some s)) = overwriteAgent env None.
Proof.
  unfold overwriteAgent. rewrite !silenced_tell_then by reflexivity.
  rewrite silenced_finally.
  rewrite silenced_logInfo_then, silenced_tell_then by reflexivity.
  rewrite silenced_logInfo_then, silenced_bind, saveAgent_silenced.
  rewrite silenced_logInfo_then, silenced_tell_then by reflexivity.
  rewrite logInfo_silenced. reflexivity.
Qed.

Lemma prepareAgent_silenced (s : Sink) (env : Environment) :
  silenced (prepareAgent env (Some s)) = prepareAgent env None.
Proof.
  unfold prepareAgent.
  rewrite silenced_logInfo_then, !silenced_tell_then by reflexivity.
  destruct (String.eqb AGENT_SHA1 _); [reflexivity | ].
  rewrite overwriteAgent_silenced. reflexivity.
Qed.

(** X14. The observer does not steer the provisioning: [prepareAgent] with
    an observer and in silent mode ends the same way and produces the same
    events once the notifications are left out, and so do [loadModStatus],
    [importFile] and [quickFix]. *)
Theorem provisioning_ignores_the_observer (s : Sink) (env : Environment)
    (run : AgentRun) :
  silenced (prepareAgent env (Some s)) = prepareAgent env None
  /\ (forall url, silenced (loadModStatus url env run (Some s))
                  = loadModStatus url env run None)
  /\ (forall upload file, silenced (importFile upload run file (Some s))
                          = importFile upload run file None)
  /\ (forall url beforeFix wipe, silenced (quickFix url run beforeFix wipe (Some s))
                                 = quickFix url run beforeFix wipe None).
Proof.
  split; [apply prepareAgent_silenced|]. split; [|split].
  - intros url. unfold loadModStatus.
    rewrite silenced_bind, prepareAgent_silenced. apply bind_ext. intros _.
    rewrite silenced_bind, sendRequest_silenced. apply bind_ext.
    intros []; reflexivity.
  - intros upload file. unfold importFile.
    rewrite silenced_tell_then, silenced_finally by reflexivity.
    rewrite !silenced_tell_then by reflexivity.
    rewrite silenced_bind. destruct upload as [|why]; [|reflexivity].
    rewrite silenced_bind, sendRequest_silenced.
    apply bind_ext. intros _. apply f_equal2; [|reflexivity].
    do 3 (apply bind_ext; intros _). apply bind_ext. intros []; reflexivity.
  - intros url beforeFix wipe. unfold quickFix.
    rewrite silenced_bind, sendRequest_silenced. apply bind_ext. intros answer.
    destruct (core_mods beforeFix); [|reflexivity].
    destruct answer; reflexivity.
Qed.

End ObserverMore.

(** * The requests built on [sendRequest] *)

Section RequestsMore.
Context `{Ext : Externals}.

Lemma toasts_app (t1 t2 : list Event) : toasts (t1 ++ t2) = (toasts t1 ++ toasts t2)%list.
Proof. apply filter_app. Qed.

Lemma for_messages_no_toast (eventSink : LogEventSink) (frames : list string) :
  forall latched, toasts (events (for_messages eventSink latched frames)) = [].
Proof.
  induction frames as [|text frames IH]; intros latched; [reflexivity|].
  destruct (JSON_parse text) as [msg|] eqn:Hparse.
  - destruct (for_messages_cons_decoded eventSink latched text frames msg Hparse)
      as [_ ->].
    change (toasts (JSONParse text :: ?t)) with (toasts t).
    rewrite toasts_app, IH, app_nil_r.
    destruct msg as [log| | | | | |]; try reflexivity.
    unfold dispatch. destruct (logFromAgent_spec log) as [method ->].
    destruct eventSink, (level log); reflexivity.
  - rewrite (for_messages_cons_refused _ _ _ _ Hparse). reflexivity.
Qed.

Lemma sendRequest_no_toast (run : AgentRun) (request : Request)
    (eventSink : LogEventSink) :
  toasts (events (sendRequest run request eventSink)) = [].
Proof.
  destruct (sendRequest_events run request eventSink) as (epilogue & -> & Hepi).
  rewrite !toasts_app, for_messages_no_toast.
  destruct Hepi as [-> | ->]; reflexivity.
Qed.

(** X15. When [quickFix] returns, the status is [beforeFix] with these
    changes only: all core mods count as installed, the modloader counts as
    present, and [installed_mods] is what the agent's answer holds under that
    name (for a [Mods] answer, its mods).  The application's information and
    the supported and downgrade versions are kept. *)
Theorem quickFix_updates_status (CORE_MOD_OVERRIDE_URL : option string)
    (run : AgentRun) (beforeFix : ModStatus) (wipe_existing_mods : bool)
    (eventSink : LogEventSink) (result : ModStatusOf (option (list Mod))) :
  outcome (quickFix CORE_MOD_OVERRIDE_URL run beforeFix wipe_existing_mods eventSink)
  = Returned result ->
  exists (answer : Response) (before : CoreModsInfo),
    outcome (sendRequest run (QuickFix CORE_MOD_OVERRIDE_URL wipe_existing_mods)
               eventSink) = Returned answer
    /\ core_mods beforeFix = Some before
    /\ result
       = {| app_info := app_info beforeFix;
            core_mods := Some {| all_core_mods_installed := true;
                                 supported_versions := supported_versions before;
                                 downgrade_versions := downgrade_versions before |};
            modloader_present := true;
            installed_mods := prop_installed_mods (properties answer) |}
    /\ (forall mods, answer = R_Mods mods -> installed_mods result = Some mods).
Proof.
  unfold quickFix.
  destruct (sendRequest run _ eventSink) as [t [answer|reason|]] eqn:Hsend;
    [|discriminate ..].
  rewrite bind_pair_returned. unfold outcome. cbn [snd].
  destruct (core_mods beforeFix) as [before|]; [|discriminate].
  cbn. intros [= <-]. exists answer, before.
  repeat split. intros mods ->. reflexivity.
Qed.

(** X16. [patchApp] and [quickFix] need the status from before: when
    [core_mods] is null in it they throw a [TypeError] although the agent has
    been run and has answered with success (and [patchApp] does so already
    on a null [app_info] when no downgrade version is given). *)
Theorem status_needs_previous_core_mods (CORE_MOD_OVERRIDE_URL : option string)
    (run : AgentRun) (before : ModStatus) (eventSink : LogEventSink) :
  core_mods before = None ->
  (forall downgradeToVersion manifestMod remodding allow_no_core_mods answer,
      outcome (sendRequest run
                 (Patch downgradeToVersion manifestMod allow_no_core_mods
                        CORE_MOD_OVERRIDE_URL remodding) eventSink)
      = Returned (R_Patched answer) ->
      outcome (patchApp CORE_MOD_OVERRIDE_URL run before downgradeToVersion
                 manifestMod remodding allow_no_core_mods eventSink)
      = Thrown (match downgradeToVersion, app_info before with
                | None, None => null_property "version"
                | _, _ => null_property "supported_versions"
                end))
  /\ (forall wipe_existing_mods answer,
        outcome (sendRequest run (QuickFix CORE_MOD_OVERRIDE_URL wipe_existing_mods)
                   eventSink) = Returned answer ->
        outcome (quickFix CORE_MOD_OVERRIDE_URL run before wipe_existing_mods eventSink)
        = Thrown (null_property "supported_versions")
        /\ remote_actions
             (events (quickFix CORE_MOD_OVERRIDE_URL run before wipe_existing_mods
                        eventSink))
           = [Spawn AgentPath;
              StdinWrite (JSON_stringify
                            (QuickFix CORE_MOD_OVERRIDE_URL wipe_existing_mods)
                          ++ String JsString.newline "")]).
Proof.
  intros Hnone. split.
  - intros downgradeToVersion manifestMod remodding allow_no_core_mods answer Hsend.
    unfold patchApp. rewrite outcome_after_tell.
    match goal with |- context [bind (sendRequest ?r ?q ?e) ?k] =>
      destruct (bind_returned (sendRequest r q e) k _ Hsend) as [_ ->] end.
    rewrite Hnone. cbn [properties prop_did_remove_dlc].
    destruct (did_remove_dlc answer), downgradeToVersion, (app_info before);
      reflexivity.
  - intros wipe_existing_mods answer Hsend.
    pose proof (sendRequest_remote run
                  (QuickFix CORE_MOD_OVERRIDE_URL wipe_existing_mods) eventSink)
      as Hremote.
    unfold quickFix.
    match goal with |- context [bind (sendRequest ?r ?q ?e) ?k] =>
      destruct (bind_returned (sendRequest r q e) k _ Hsend) as [-> ->] end.
    rewrite Hnone, remote_actions_app, Hremote. split; reflexivity.
Qed.

(** X17. [patchApp] shows the warning about deleted DLC once when
    [sendRequest] has returned an answer whose [did_remove_dlc] holds (for a
    [Patched] answer, its field), and not at all otherwise: neither when the
    answer does not say so, nor when [sendRequest] has thrown; and this
    whether [patchApp] then returns or throws. *)
Theorem dlc_warning_exactly_when_reported (CORE_MOD_OVERRIDE_URL : option string)
    (run : AgentRun) (beforePatch : ModStatus) (downgradeToVersion : option string)
    (manifestMod : string) (remodding allow_no_core_mods : bool)
    (eventSink : LogEventSink) :
  let request := Patch downgradeToVersion manifestMod allow_no_core_mods
                       CORE_MOD_OVERRIDE_URL remodding in
  let shown := toasts (events (patchApp CORE_MOD_OVERRIDE_URL run beforePatch
                                 downgradeToVersion manifestMod remodding
                                 allow_no_core_mods eventSink)) in
  shown = match outcome (sendRequest run request eventSink) with
          | Returned answer =>
              if prop_did_remove_dlc (properties answer)
              then [ToastWarning dlc_warning] else []
          | _ => []
          end
  /\ (forall patched,
        outcome (sendRequest run request eventSink) = Returned (R_Patched patched) ->
        shown = if did_remove_dlc patched then [ToastWarning dlc_warning] else []).
Proof.
  intros request shown.
  assert (Hshown :
            shown = match outcome (sendRequest run request eventSink) with
                    | Returned answer =>
                        if prop_did_remove_dlc (properties answer)
                        then [ToastWarning dlc_warning] else []
                    | _ => []
                    end).
  { subst shown. unfold patchApp. fold request.
    rewrite bind_tell. unfold events at 1. cbn [fst].
    change (toasts (Console ?m ?a :: ?t)) with (toasts t).
    pose proof (sendRequest_no_toast run request eventSink) as Hquiet.
    destruct (sendRequest run request eventSink) as [t [answer|reason|]];
      unfold events in Hquiet; cbn [fst] in Hquiet.
    - rewrite bind_pair_returned. unfold events at 1, outcome. cbn [fst snd].
      rewrite toasts_app, Hquiet.
      destruct (prop_did_remove_dlc (properties answer)), downgradeToVersion,
        (app_info beforePatch), (core_mods beforePatch); reflexivity.
    - exact Hquiet.
    - exact Hquiet. }
  split; [exact Hshown|].
  intros patched Hsend. rewrite Hshown, Hsend. reflexivity.
Qed.

(** X18. [importFile] writes the file to "/data/local/tmp/mbf-uploads/"
    followed by the file's name as it is, and names that very path in the
    [Import] request.  When the write is rejected the agent is not spawned and
    the rejection is thrown.  The sync connection is disposed of last in
    every case. *)
Theorem importFile_uploads_then_imports (run : AgentRun) (file : File)
    (eventSink : LogEventSink) :
  remote_actions (events (importFile Fulfilled run file eventSink))
  = [SyncOpen; SyncWrite (upload_path file) (arrayBuffer file);
     Spawn AgentPath;
     StdinWrite (JSON_stringify (Import (upload_path file))
                 ++ String JsString.newline "");
     SyncDispose]
  /\ forall why,
       outcome (importFile (Rejected why) run file eventSink) = Thrown why
       /\ remote_actions (events (importFile (Rejected why) run file eventSink))
          = [SyncOpen; SyncWrite (upload_path file) (arrayBuffer file); SyncDispose].
Proof.
  split; [|intros why; split; reflexivity].
  pose proof (sendRequest_remote run (Import (upload_path file)) eventSink) as Hremote.
  unfold importFile. fold (upload_path file).
  rewrite bind_tell. unfold events at 1. cbn [fst].
  unfold finally. unfold events at 1. cbn [fst].
  rewrite !bind_tell, bind_ret_l. unfold events at 1 2. cbn [fst].
  destruct (sendRequest run (Import (upload_path file)) eventSink)
    as [t [answer|reason|]]; unfold events in Hremote; cbn [fst] in Hremote.
  - rewrite bind_pair_returned. cbn [fst].
    repeat (rewrite ?remote_actions_cons, ?remote_actions_app); rewrite Hremote.
    destruct answer; reflexivity.
  - cbn [bind fst]. repeat (rewrite ?remote_actions_cons, ?remote_actions_app); rewrite Hremote.
    reflexivity.
  - cbn [bind fst]. repeat (rewrite ?remote_actions_cons, ?remote_actions_app); rewrite Hremote.
    reflexivity.
Qed.

(** X19. [loadModStatus] talks to the agent only once the provisioning has
    returned: when [prepareAgent] throws, its error is thrown and the agent
    is not spawned; when it returns, the agent is spawned next and sent the
    [GetModStatus] request carrying the current override URL. *)
Theorem loadModStatus_provisions_first (CORE_MOD_OVERRIDE_URL : option string)
    (env : Environment) (run : AgentRun) (eventSink : LogEventSink) :
  (forall reason,
      outcome (prepareAgent env eventSink) = Thrown reason ->
      outcome (loadModStatus CORE_MOD_OVERRIDE_URL env run eventSink) = Thrown reason
      /\ remote_actions (events (loadModStatus CORE_MOD_OVERRIDE_URL env run eventSink))
         = remote_actions (events (prepareAgent env eventSink)))
  /\ (outcome (prepareAgent env eventSink) = Returned tt ->
      remote_actions (events (loadModStatus CORE_MOD_OVERRIDE_URL env run eventSink))
      = (remote_actions (events (prepareAgent env eventSink))
         ++ [Spawn AgentPath;
             StdinWrite (JSON_stringify (GetModStatus CORE_MOD_OVERRIDE_URL)
                         ++ String JsString.newline "")])%list).
Proof.
  unfold loadModStatus. split.
  - intros reason Hprep.
    match goal with |- context [bind (prepareAgent _ _) ?k] =>
      destruct (bind_thrown (prepareAgent env eventSink) k reason Hprep) as [-> ->] end.
    split; reflexivity.
  - intros Hprep.
    match goal with |- context [bind (prepareAgent _ _) ?k] =>
      destruct (bind_returned (prepareAgent env eventSink) k tt Hprep) as [-> _] end.
    pose proof (sendRequest_remote run (GetModStatus CORE_MOD_OVERRIDE_URL) eventSink)
      as Hremote.
    rewrite remote_actions_app. f_equal.
    destruct (sendRequest run (GetModStatus CORE_MOD_OVERRIDE_URL) eventSink)
      as [t [answer|reason|]]; unfold events in *; cbn [fst] in Hremote.
    + rewrite bind_pair_returned. cbn [fst]. rewrite remote_actions_app, Hremote.
      destruct answer; reflexivity.
    + exact Hremote.
    + exact Hremote.
Qed.

End RequestsMore.

Section RequestsMoreExamples.
Import Sample.

Lemma quickFix_updates_status_witness :
  exists answer,
    outcome (@sendRequest payloads mods_externals fix_run (QuickFix None false) observer)
    = Returned answer
    /\ outcome (@quickFix payloads mods_externals None fix_run before_fix false observer)
       = Returned {| app_info := None;
                     core_mods := Some {| all_core_mods_installed := true;
                                          supported_versions := ["1.37.0"];
                                          downgrade_versions := ["1.35.0"] |};
                     modloader_present := true;
                     installed_mods := prop_installed_mods
                                         (@properties payloads mods_externals answer) |}.
Proof.
  destruct (@quickFix_updates_status payloads mods_externals None fix_run before_fix
              false observer
              {| app_info := None;
                 core_mods := Some {| all_core_mods_installed := true;
                                      supported_versions := ["1.37.0"];
                                      downgrade_versions := ["1.35.0"] |};
                 modloader_present := true;
                 installed_mods := Some ["bsml"] |} eq_refl)
    as (answer & before & Hsend & Hbefore & Hbuilt & _).
  exists answer. split; [exact Hsend|].
  injection Hbefore as <-. exact (f_equal Returned Hbuilt).
Defined.

Lemma status_needs_previous_core_mods_witness :
  outcome (patchApp None patch_run empty_status (Some "1.35.0") "<manifest/>"
             false false observer)
  = Thrown (null_property "supported_versions")
  /\ outcome (patchApp None patch_run empty_status None "<manifest/>"
                false false observer)
     = Thrown (null_property "version").
Proof.
  destruct (status_needs_previous_core_mods None patch_run empty_status observer eq_refl)
    as [Hpatch _].
  split.
  - apply (Hpatch (Some "1.35.0") "<manifest/>" false false patched). reflexivity.
  - apply (Hpatch None "<manifest/>" false false patched). reflexivity.
Defined.

Lemma dlc_warning_exactly_when_reported_witness :
  toasts (events (patchApp None patch_run before_patch None "<manifest/>"
                    false false observer))
  = [ToastWarning dlc_warning]
  /\ toasts (events (patchApp None crashed_run before_patch None "<manifest/>"
                       false false observer))
     = [].
Proof.
  split.
  - apply (dlc_warning_exactly_when_reported None patch_run before_patch None
             "<manifest/>" false false observer) with (patched := patched).
    reflexivity.
  - exact (proj1 (dlc_warning_exactly_when_reported None crashed_run before_patch
                    None "<manifest/>" false false observer)).
Defined.

Lemma loadModStatus_provisions_first_witness :
  outcome (loadModStatus None offline_device scenario_run observer)
  = Thrown fetch_failed_message
  /\ remote_actions (events (loadModStatus None up_to_date_device scenario_run observer))
     = (remote_actions (events (prepareAgent up_to_date_device observer))
        ++ [Spawn AgentPath;
            StdinWrite (JSON_stringify (GetModStatus None)
                        ++ String JsString.newline "")])%list.
Proof.
  destruct (loadModStatus_provisions_first None offline_device scenario_run observer)
    as [Hfail _].
  destruct (loadModStatus_provisions_first None up_to_date_device scenario_run observer)
    as [_ Hgood].
  split.
  - apply (Hfail fetch_failed_message). reflexivity.
  - apply Hgood. reflexivity.
Defined.

End RequestsMoreExamples.

(** * [DeviceModder.tsx] *)

Section DeviceModderMore.
Context `{Payloads}.
Import DeviceModder.

Lemma includes_In (versions : list string) (v : string) :
  includes versions v = true <-> In v versions.
Proof.
  unfold includes. rewrite existsb_exists. split.
  - intros (x & Hin & Heq). apply String.eqb_eq in Heq. subst x. exact Hin.
  - intros Hin. exists v. split; [exact Hin | apply String.eqb_refl].
Qed.

(** X20. The button that patches the game is offered exactly when no patch
    is running, the status is loaded, the game is installed, the list of
    supported versions is known and holds the installed version, and the
    game is not modded yet; the menu shows the installed version. *)
Theorem patch_menu_exactly_when_patchable (patching : bool)
    (loaded : option ModStatus) (v : string) :
  render patching loaded = PatchingMenu v
  <-> patching = false
      /\ exists status info supported,
           loaded = Some status
           /\ app_info status = Some info
           /\ supported_versions status = Some supported
           /\ version info = v
           /\ In v supported
           /\ is_modded info = false.
Proof.
  unfold render. split.
  - destruct patching; [discriminate|].
    destruct loaded as [status|]; [|discriminate].
    destruct (app_info status) as [info|] eqn:Hinfo; [|discriminate].
    destruct (supported_versions status) as [supported|] eqn:Hsup; [|discriminate].
    destruct (includes supported (version info)) eqn:Hin; [|discriminate].
    destruct (is_modded info) eqn:Hmod; [discriminate|].
    cbn [negb]. intros [= <-]. split; [reflexivity|].
    exists status, info, supported. apply includes_In in Hin. repeat split; assumption.
  - intros (-> & status & info & supported & -> & -> & -> & <- & Hin & ->).
    apply includes_In in Hin. rewrite Hin. reflexivity.
Qed.

(** X21. An installed version that is not in the list of supported
    versions is reported as unsupported, with the version and the list,
    whether or not the game is already modded: the mods are not shown and the
    patch is not offered. *)
Theorem unsupported_version_wins (status : ModStatus) (info : AppInfo)
    (supported : list string) :
  app_info status = Some info ->
  supported_versions status = Some supported ->
  ~ In (version info) supported ->
  render false (Some status) = NotSupported (version info) supported.
Proof.
  intros Hinfo Hsup Hout. unfold render. rewrite Hinfo, Hsup.
  destruct (includes supported (version info)) eqn:Hin; [|reflexivity].
  apply includes_In in Hin. contradiction.
Qed.

(** X22. From the patch menu: while the patch runs the "being patched"
    notice is shown; when [patchApp] has returned the game shows as modded
    with the mods known before; when [patchApp] has thrown, the error leaves
    the handler and the menu is shown again. *)
Theorem onPatch_ends_patching (status : ModStatus) (v : string) :
  render false (Some status) = PatchingMenu v ->
  render (isPatching (onPatch_started {| isPatching := false; modStatus := Some status |}))
         (modStatus (onPatch_started {| isPatching := false; modStatus := Some status |}))
  = AppIsBeingPatched
  /\ (let (after, ended) := onPatch (Returned tt) status in
      ended = Returned tt
      /\ render (isPatching after) (modStatus after)
         = AppIsModded (installed_mods status))
  /\ (forall reason,
        let (after, ended) := onPatch (Thrown reason) status in
        ended = Thrown reason
        /\ render (isPatching after) (modStatus after) = PatchingMenu v).
Proof.
  intros Hmenu. split; [reflexivity|].
  apply patch_menu_exactly_when_patchable in Hmenu.
  destruct Hmenu as (_ & status' & info & supported & [= <-] & Hinfo & Hsup & Hv & Hin & Hmod).
  apply includes_In in Hin. split.
  - unfold onPatch. rewrite Hinfo. split; [reflexivity|].
    unfold render. cbn. rewrite Hsup, Hv, Hin. reflexivity.
  - intros reason. cbn. split; [reflexivity|].
    unfold render. rewrite Hinfo, Hsup, Hv, Hin, Hmod. reflexivity.
Qed.

End DeviceModderMore.

Section DeviceModderExamples.
Import Sample.

Lemma unsupported_version_wins_witness :
  DeviceModder.render false (Some outdated_status)
  = DeviceModder.NotSupported "1.28.0" ["1.35.0"; "1.37.0"].
Proof.
  apply (unsupported_version_wins outdated_status
           {| DeviceModder.version := "1.28.0"; DeviceModder.is_modded := true |}
           ["1.35.0"; "1.37.0"]); try reflexivity.
  cbn. intros [Heq | [Heq | []]]; discriminate.
Defined.

Lemma onPatch_ends_patching_witness :
  DeviceModder.render false
    (DeviceModder.modStatus (fst (DeviceModder.onPatch (Returned tt) unmodded_status)))
  = DeviceModder.AppIsModded ["songcore"].
Proof.
  destruct (onPatch_ends_patching unmodded_status "1.37.0" eq_refl)
    as (_ & Hdone & _).
  destruct (DeviceModder.onPatch (Returned tt) unmodded_status) as [after ended].
  destruct Hdone as [_ Hshown]. destruct after as [patching loaded].
  cbn in *. destruct patching; [discriminate | exact Hshown].
Defined.

End DeviceModderExamples.

(** * The plain requests *)

Section PlainRequests.
Context `{Ext : Externals}.

Lemma request_then_cast {A} (run : AgentRun) (request : Request)
    (eventSink : LogEventSink) (cast : Response -> M A) :
  (forall answer, events (cast answer) = []) ->
  events (answer <- sendRequest run request eventSink ;; cast answer)
  = events (sendRequest run request eventSink)
  /\ forall reason,
       outcome (sendRequest run request eventSink) = Thrown reason ->
       outcome (answer <- sendRequest run request eventSink ;; cast answer)
       = Thrown reason.
Proof.
  intros Hcast.
  destruct (sendRequest run request eventSink) as [t [answer|reason|]].
  - rewrite bind_pair_returned. unfold events at 1 3, outcome. cbn [fst snd].
    rewrite Hcast, app_nil_r. split; [reflexivity | discriminate].
  - split; [reflexivity | intros reason' [= <-]; reflexivity].
  - split; [reflexivity | discriminate].
Qed.

(** X23. [setModStatuses], [removeMod], [importUrl],
    [getDowngradedManifest] and [fixPlayerData] do what [sendRequest] does
    with their own request and nothing more: the same events, so the agent is
    spawned once and sent that request, and an error of [sendRequest] is
    thrown as it is. *)
Theorem plain_requests_only_send (run : AgentRun) (eventSink : LogEventSink) :
  (forall changes,
      events (setModStatuses run changes eventSink)
      = events (sendRequest run (SetModsEnabled changes) eventSink)
      /\ forall reason,
           outcome (sendRequest run (SetModsEnabled changes) eventSink) = Thrown reason ->
           outcome (setModStatuses run changes eventSink) = Thrown reason)
  /\ (forall id,
        events (removeMod run id eventSink)
        = events (sendRequest run (RemoveMod id) eventSink)
        /\ forall reason,
             outcome (sendRequest run (RemoveMod id) eventSink) = Thrown reason ->
             outcome (removeMod run id eventSink) = Thrown reason)
  /\ (forall url,
        events (importUrl run url eventSink)
        = events (sendRequest run (ImportUrl url) eventSink)
        /\ forall reason,
             outcome (sendRequest run (ImportUrl url) eventSink) = Thrown reason ->
             outcome (importUrl run url eventSink) = Thrown reason)
  /\ (forall gameVersion,
        events (getDowngradedManifest run gameVersion eventSink)
        = events (sendRequest run (GetDowngradedManifest gameVersion) eventSink)
        /\ forall reason,
             outcome (sendRequest run (GetDowngradedManifest gameVersion) eventSink)
             = Thrown reason ->
             outcome (getDowngradedManifest run gameVersion eventSink) = Thrown reason)
  /\ (events (fixPlayerData run eventSink)
      = events (sendRequest run FixPlayerData eventSink)
      /\ forall reason,
           outcome (sendRequest run FixPlayerData eventSink) = Thrown reason ->
           outcome (fixPlayerData run eventSink) = Thrown reason).
Proof.
  repeat split; intros;
    try (apply request_then_cast; [intros []; reflexivity | assumption]);
    apply request_then_cast; intros []; reflexivity.
Qed.

End PlainRequests.

Section PlainRequestsExample.
Import Sample.

Lemma plain_requests_only_send_witness :
  outcome (removeMod crashed_run "songcore" observer)
  = Thrown "Failed to invoke agent: is the executable corrupt?cannot execute binary file".
Proof.
  destruct (plain_requests_only_send crashed_run observer) as (_ & Hremove & _).
  destruct (Hremove "songcore") as [_ Hthrown].
  apply Hthrown. reflexivity.
Defined.

End PlainRequestsExample.

(** * The observer as a callback *)

Section CallbackFacts.
Context `{Ext : Externals}.
Variable react : Sink -> LogMsg -> Reply.

Lemma notify_harmless (eventSink : LogEventSink) (event : LogMsg) :
  Callback.harmless react eventSink ->
  Callback.notify react eventSink event
  = (match eventSink with
     | Some s => tell (SinkCall s event)
     | None => ret tt
     end ;;; ret event).
Proof.
  destruct eventSink as [s|]; [|reflexivity].
  intros Hs. unfold Callback.notify. rewrite (Hs event). reflexivity.
Qed.

Lemma logInfo_harmless (eventSink : LogEventSink) (msg : string) :
  Callback.harmless react eventSink -> Callback.logInfo react eventSink msg = logInfo eventSink msg.
Proof.
  intros Hs. unfold Callback.logInfo, logInfo. rewrite (notify_harmless _ _ Hs).
  destruct eventSink; reflexivity.
Qed.

Lemma dispatch_harmless (eventSink : LogEventSink) (latched : option Response)
    (msg : Response) :
  Callback.harmless react eventSink ->
  Callback.dispatch react eventSink latched msg = dispatch eventSink latched msg.
Proof.
  intros Hs. destruct msg as [log| | | | | |]; try reflexivity.
  unfold Callback.dispatch, dispatch. rewrite (notify_harmless _ _ Hs).
  destruct (logFromAgent_spec log) as [method ->].
  destruct eventSink; cbn; destruct (level log); reflexivity.
Qed.

Lemma for_messages_harmless (eventSink : LogEventSink) (frames : list string) :
  Callback.harmless react eventSink ->
  forall latched,
    Callback.for_messages react eventSink latched frames
    = for_messages eventSink latched frames.
Proof.
  intros Hs. induction frames as [|text frames IH]; intros latched; [reflexivity|].
  cbn [Callback.for_messages for_messages]. apply bind_ext. intros msg.
  rewrite (dispatch_harmless _ _ _ Hs). apply bind_ext. intros latched'. apply IH.
Qed.

Lemma read_loop_harmless (eventSink : LogEventSink) (reads : list (option string)) :
  Callback.harmless react eventSink ->
  forall st, Callback.read_loop react eventSink st reads = read_loop eventSink st reads.
Proof.
  intros Hs. induction reads as [|[chunk|] reads IH]; intros st;
    [reflexivity| |apply IH].
  cbn [Callback.read_loop read_loop]. unfold Callback.on_chunk, on_chunk.
  rewrite (for_messages_harmless _ _ Hs). apply bind_ext. intros st'. apply IH.
Qed.

(** For a harmless sink the callback changes nothing: [sendRequest] is the
    one the rest of the file is about. *)
Lemma sendRequest_harmless (run : AgentRun) (request : Request)
    (eventSink : LogEventSink) :
  Callback.harmless react eventSink ->
  Callback.sendRequest react run request eventSink = sendRequest run request eventSink.
Proof.
  intros Hs. unfold Callback.sendRequest, sendRequest.
  rewrite (read_loop_harmless _ _ Hs). reflexivity.
Qed.

(** C9, amended. For every request and every run of the agent,
    [sendRequest] with a null event sink and [sendRequest] with an event sink
    that returns normally and leaves the event it is handed unchanged end
    the same way (the same response returned or the same error thrown) and
    produce the same events once the notifications of the sink are left out;
    with a null sink nothing is notified.  The same holds of [logInfo]. *)
Theorem sink_presence_is_unobservable (run : AgentRun) (request : Request)
    (s : Sink) :
  Callback.well_behaved react s ->
  outcome (Callback.sendRequest react run request (Some s))
  = outcome (Callback.sendRequest react run request None)
  /\ without_sink (events (Callback.sendRequest react run request (Some s)))
     = events (Callback.sendRequest react run request None)
  /\ sink_calls (events (Callback.sendRequest react run request None)) = []
  /\ forall msg,
       outcome (Callback.logInfo react (Some s) msg)
       = outcome (Callback.logInfo react None msg)
       /\ without_sink (events (Callback.logInfo react (Some s) msg))
          = events (Callback.logInfo react None msg).
Proof.
  intros Hs.
  rewrite (sendRequest_harmless run request (Some s) Hs),
    (sendRequest_harmless run request None I).
  pose proof (sendRequest_silenced run request s) as Hsil.
  rewrite <- Hsil. unfold silenced, events, outcome. cbn [fst snd].
  split; [reflexivity|]. split; [reflexivity|].
  split; [apply sink_calls_without_sink|].
  intros msg. rewrite (logInfo_harmless (Some s) msg Hs), (logInfo_harmless None msg I).
  split; reflexivity.
Qed.

End CallbackFacts.

Section CallbackExamples.
Import Sample.

Lemma sink_presence_is_unobservable_witness :
  outcome (Callback.sendRequest recording scenario_run (GetModStatus None) observer)
  = outcome (Callback.sendRequest recording scenario_run (GetModStatus None) silent).
Proof.
  apply (sink_presence_is_unobservable recording scenario_run (GetModStatus None) 7).
  intros event. reflexivity.
Defined.

(** C9 as stated fails.  A sink that throws makes [sendRequest] throw what
    it threw where the silent session returns the status; a sink that
    returns after marking the event as an error makes [sendRequest] throw
    that log's message where the silent session reports that nothing was
    answered. *)
Lemma unguarded_sink_changes_the_outcome :
  outcome (Callback.sendRequest throwing scenario_run (GetModStatus None) observer)
  <> outcome (Callback.sendRequest throwing scenario_run (GetModStatus None) silent)
  /\ outcome (Callback.sendRequest escalating info_only_run (GetModStatus None) observer)
     <> outcome (Callback.sendRequest escalating info_only_run (GetModStatus None) silent).
Proof. split; vm_compute; discriminate. Qed.

End CallbackExamples.
